(** * Amass: name clean-up, web-archive crawler loop and network helpers

    A shallow embedding of
    - [amass/utils/network.go] (package [utils]): [RequestWebPage],
      [NetHosts], [NetFirstLast], [IsIPv4], [IsIPv6], [ipToInt], [intToIP],
      [RangeHosts], [addrInc], [addrDec], [CIDRSubset], [IPv6NibbleFormat];
    - the [sources] package file holding [nameStripRE], [cleanName] and
      [crawl].

    Conventions of the embedding.
    - A Go [string] is a [string] of Rocq (a sequence of 8-bit characters).
      The functions of Go's [strings] and [unicode] packages are embedded on
      ASCII text, where one character is one byte.
    - A [net.IP] and a [net.IPMask] are lists of bytes, a byte being a [Z] in
      [0, 256); byte arithmetic wraps modulo 256 explicitly.  The [nil]
      slice is the empty list.
    - A [*big.Int] is a [Z].
    - A call that can panic or loop has an [outcome]: [Returns v], [Panics]
      (a Go run-time panic) or [OutOfFuel].
    - A loop whose number of turns is not bounded by an argument takes a
      [fuel] and stops with [OutOfFuel] when it runs out; the theorems state
      how much fuel gives the result.
    - What a function gets from outside (the HTTP client, the URL parser,
      the channels of the crawler) is a parameter of its embedding. *)

From Stdlib Require Import ZArith List String Ascii Lia Bool.
From Equations Require Import Equations.
From stdpp Require Import base list gmap strings.
Import ListNotations.

Open Scope Z_scope.

(* ================================================================== *)
(** * Go's [strings] package, on ASCII text *)
(* ================================================================== *)

Module GoStrings.

(** [unicode.IsSpace] on the ASCII range: tab, line feed, vertical tab,
    form feed, carriage return and space. *)
Definition IsSpace (c : ascii) : bool :=
  let n := N_of_ascii c in
  ((9 <=? n) && (n <=? 13))%N || (n =? 32)%N.

(** [unicode.ToLower] on the ASCII range: ['A'..'Z'] move by
    ['a' - 'A']. *)
Definition toLowerChar (c : ascii) : ascii :=
  let n := N_of_ascii c in
  if ((65 <=? n) && (n <=? 90))%N then ascii_of_N (n + 32) else c.

Fixpoint mapString (f : ascii -> ascii) (s : string) : string :=
  match s with
  | EmptyString => EmptyString
  | String c r => String (f c) (mapString f r)
  end.

(** [strings.ToLower]. *)
Definition ToLower (s : string) : string := mapString toLowerChar s.

(** [strings.TrimLeftFunc]: the suffix that starts at the first character
    that does not satisfy [f]. *)
Fixpoint TrimLeftFunc (s : string) (f : ascii -> bool) : string :=
  match s with
  | EmptyString => EmptyString
  | String c r => if f c then TrimLeftFunc r f else s
  end.

(** [strings.TrimRightFunc]: the prefix that ends at the last character
    that does not satisfy [f]. *)
Fixpoint TrimRightFunc (s : string) (f : ascii -> bool) : string :=
  match s with
  | EmptyString => EmptyString
  | String c r =>
      match TrimRightFunc r f with
      | EmptyString => if f c then EmptyString else String c EmptyString
      | r' => String c r'
      end
  end.

(** [strings.TrimFunc]. *)
Definition TrimFunc (s : string) (f : ascii -> bool) : string :=
  TrimRightFunc (TrimLeftFunc s f) f.

(** [strings.TrimSpace]. *)
Definition TrimSpace (s : string) : string := TrimFunc s IsSpace.

Fixpoint inCutset (cutset : string) (c : ascii) : bool :=
  match cutset with
  | EmptyString => false
  | String d r => Ascii.eqb c d || inCutset r c
  end.

(** [strings.Trim]. *)
Definition Trim (s cutset : string) : string :=
  TrimFunc s (inCutset cutset).

(** The slice expression [s[n:]], for [n <= len(s)]. *)
Fixpoint sliceFrom (n : nat) (s : string) : string :=
  match n, s with
  | O, _ => s
  | S n', String _ r => sliceFrom n' r
  | S _, EmptyString => EmptyString
  end.

(** The slice expression [s[:n]], for [n <= len(s)]. *)
Fixpoint sliceTo (n : nat) (s : string) : string :=
  match n, s with
  | S n', String c r => String c (sliceTo n' r)
  | _, _ => EmptyString
  end.

(** [strings.Count(s, sep)] for a separator of one character. *)
Fixpoint CountChar (s : string) (sep : ascii) : Z :=
  match s with
  | EmptyString => 0
  | String c r => (if Ascii.eqb c sep then 1 else 0) + CountChar r sep
  end.


(** [strings.Split(s, sep)] for a separator of one character: the pieces
    between the occurrences of [sep], one more than there are
    occurrences. *)
Fixpoint SplitChar (s : string) (sep : ascii) : list string :=
  match s with
  | EmptyString => [EmptyString]
  | String c r =>
      if Ascii.eqb c sep then EmptyString :: SplitChar r sep
      else match SplitChar r sep with
           | x :: xs => String c x :: xs
           | [] => [String c EmptyString]
           end
  end.

(** [strings.Join]. *)
Fixpoint Join (a : list string) (sep : string) : string :=
  match a with
  | [] => EmptyString
  | [x] => x
  | x :: r => x +:+ sep +:+ Join r sep
  end.

End GoStrings.

(* ================================================================== *)
(** * The [regexp] value [nameStripRE] *)
(* ================================================================== *)

Module GoRegexp.

(** The fragment of regular expressions [nameStripRE] is written in. *)
Inductive regex : Type :=
| Lit (s : string)
| Alt (r1 r2 : regex)
| Plus (r : regex).

(** The words of a regular expression. *)
Inductive Matches : regex -> string -> Prop :=
| MLit s : Matches (Lit s) s
| MAltL r1 r2 w : Matches r1 w -> Matches (Alt r1 r2) w
| MAltR r1 r2 w : Matches r2 w -> Matches (Alt r1 r2) w
| MPlus1 r w : Matches r w -> Matches (Plus r) w
| MPlusS r w1 w2 :
    Matches r w1 -> Matches (Plus r) w2 -> Matches (Plus r) (w1 +:+ w2).

End GoRegexp.

(* ================================================================== *)
(** * Results of code that can panic or loop *)
(* ================================================================== *)

(** What a call does: it returns a value, it panics (a Go run-time panic
    such as an index or a slice bound out of range), or the fuel given to
    its loop ran out before the loop ended. *)
Inductive outcome (A : Type) : Type :=
| Returns (a : A)
| Panics
| OutOfFuel.
Arguments Returns {A} a.
Arguments Panics {A}.
Arguments OutOfFuel {A}.

(* ================================================================== *)
(** * Go's [net], [bytes] and [math/big] packages *)
(* ================================================================== *)

Module GoNet.
Import GoStrings.

(** [net.IP] and [net.IPMask]: slices of bytes. *)
Definition IP : Type := list Z.
Definition IPMask : Type := list Z.

(** [net.IPNet]. *)
Record IPNet : Type := mkIPNet { IPNet_IP : IP; IPNet_Mask : IPMask }.

Definition IPv4len : nat := 4.
Definition IPv6len : nat := 16.

(** Every element is a byte. *)
Definition is_bytes (l : list Z) : bool :=
  forallb (fun b => (0 <=? b) && (b <? 256)) l.

Definition isNil (l : list Z) : bool :=
  match l with [] => true | _ => false end.

Definition v4InV6Prefix : list Z := [0; 0; 0; 0; 0; 0; 0; 0; 0; 0; 255; 255].

Definition isZeros (p : list Z) : bool := forallb (Z.eqb 0) p.
Definition allFF (b : list Z) : bool := forallb (Z.eqb 255) b.

Fixpoint bytesEqual (x y : list Z) : bool :=
  match x, y with
  | [], [] => true
  | a :: x', b :: y' => (a =? b) && bytesEqual x' y'
  | _, _ => false
  end.

(** [bytes.Compare]: lexicographic order, [-1], [0] or [1]. *)
Fixpoint Compare (a b : list Z) : Z :=
  match a, b with
  | [], [] => 0
  | [], _ :: _ => -1
  | _ :: _, [] => 1
  | x :: a', y :: b' =>
      if x <? y then -1 else if y <? x then 1 else Compare a' b'
  end.

(** [net.IPv4(a, b, c, d)]: the 16-byte form of an IPv4 address. *)
Definition IPv4 (a b c d : Z) : IP := v4InV6Prefix ++ [a; b; c; d].

(** [ip.To4()]. *)
Definition To4 (ip : IP) : IP :=
  if (length ip =? IPv4len)%nat then ip
  else if (length ip =? IPv6len)%nat && isZeros (take 10 ip)
          && (nth 10 ip 0 =? 255) && (nth 11 ip 0 =? 255)
       then drop 12 ip
       else [].

(** [ip.To16()]. *)
Definition To16 (ip : IP) : IP :=
  if (length ip =? IPv4len)%nat
  then IPv4 (nth 0 ip 0) (nth 1 ip 0) (nth 2 ip 0) (nth 3 ip 0)
  else if (length ip =? IPv6len)%nat then ip
       else [].

(** [ip.Mask(mask)]. *)
Definition Mask (ip : IP) (mask : IPMask) : IP :=
  let mask :=
    if (length mask =? IPv6len)%nat && (length ip =? IPv4len)%nat
       && allFF (take 12 mask)
    then drop 12 mask else mask in
  let ip :=
    if (length mask =? IPv4len)%nat && (length ip =? IPv6len)%nat
       && bytesEqual (take 12 ip) v4InV6Prefix
    then drop 12 ip else ip in
  if negb (length ip =? length mask)%nat then []
  else zip_with Z.land ip mask.

(** [ip.Equal(x)]. *)
Definition Equal (ip x : IP) : bool :=
  if (length ip =? length x)%nat then bytesEqual ip x
  else if (length ip =? IPv4len)%nat && (length x =? IPv6len)%nat
       then bytesEqual (take 12 x) v4InV6Prefix && bytesEqual ip (drop 12 x)
       else if (length ip =? IPv6len)%nat && (length x =? IPv4len)%nat
            then bytesEqual (take 12 ip) v4InV6Prefix
                 && bytesEqual (drop 12 ip) x
            else false.

(** [networkNumberAndMask(n)]. *)
Definition networkNumberAndMask (n : IPNet) : IP * IPMask :=
  let ip4 := To4 (IPNet_IP n) in
  let ip := if isNil ip4 then IPNet_IP n else ip4 in
  if isNil ip4 && negb (length ip =? IPv6len)%nat then ([], [])
  else
    if (length (IPNet_Mask n) =? IPv4len)%nat then
      if negb (length ip =? IPv4len)%nat then ([], [])
      else (ip, IPNet_Mask n)
    else if (length (IPNet_Mask n) =? IPv6len)%nat then
      if (length ip =? IPv4len)%nat then (ip, drop 12 (IPNet_Mask n))
      else (ip, IPNet_Mask n)
    else ([], []).

(** The loop of [Contains]: every byte of [nn] and of [ip] agree under
    the mask. *)
Fixpoint sameNetwork (nn m ip : list Z) : bool :=
  match nn, m, ip with
  | a :: nn', k :: m', b :: ip' =>
      (Z.land a k =? Z.land b k) && sameNetwork nn' m' ip'
  | _, _, _ => true
  end.

(** [n.Contains(ip)]. *)
Definition Contains (n : IPNet) (ip : IP) : bool :=
  let '(nn, m) := networkNumberAndMask n in
  let x := To4 ip in
  let ip := if isNil x then ip else x in
  if negb (length ip =? length nn)%nat then false
  else sameNetwork nn m ip.

(** [simpleMaskLength(mask)]: the number of leading ones when the mask
    is ones followed by zeros, [-1] otherwise. *)
Fixpoint leadingOnes (fuel : nat) (v : Z) : Z * Z :=
  match fuel with
  | O => (0, v)
  | S f =>
      if Z.land v 128 =? 0 then (0, v)
      else let '(n, v') := leadingOnes f (Z.shiftl v 1 mod 256) in
           (n + 1, v')
  end.

Fixpoint simpleMaskLength (mask : IPMask) : Z :=
  match mask with
  | [] => 0
  | v :: rest =>
      if v =? 255 then
        let n := simpleMaskLength rest in
        if n =? -1 then -1 else 8 + n
      else
        let '(n, v') := leadingOnes 8 v in
        if negb (v' =? 0) then -1
        else if isZeros rest then n else -1
  end.

(** [m.Size()]. *)
Definition Size (m : IPMask) : Z * Z :=
  let ones := simpleMaskLength m in
  let bits := Z.of_nat (length m) * 8 in
  if ones =? -1 then (0, 0) else (ones, bits).

(** [net.CIDRMask(ones, bits)] for [bits] 32 or 128 and
    [0 <= ones <= bits]. *)
Fixpoint maskBytes (l : nat) (n : Z) : IPMask :=
  match l with
  | O => []
  | S l' =>
      if 8 <=? n then 255 :: maskBytes l' (n - 8)
      else Z.land (Z.lnot (Z.shiftr 255 n)) 255 :: maskBytes l' 0
  end.

Definition CIDRMask (ones bits : Z) : IPMask :=
  if negb ((bits =? 32) || (bits =? 128)) then []
  else if (ones <? 0) || (bits <? ones) then []
  else maskBytes (Z.to_nat (bits / 8)) ones.

(** *** [ip.String()] *)

Definition hexDigit : string := "0123456789abcdef".

Definition charAt (s : string) (i : Z) : ascii :=
  match String.get (Z.to_nat i) s with Some c => c | None => "000"%char end.

(** [byte('0' + d)]. *)
Definition digitChar (d : Z) : ascii := ascii_of_N (Z.to_N (48 + d)).

(** [uitoa(val)]: decimal digits, no leading zero. *)
Fixpoint uitoa_loop (fuel : nat) (val : Z) (buf : string) : string :=
  match fuel with
  | O => buf
  | S f =>
      if 10 <=? val
      then uitoa_loop f (val / 10) (String (digitChar (val mod 10)) buf)
      else String (digitChar val) buf
  end.

Definition uitoa (val : Z) : string :=
  if val =? 0 then "0" else uitoa_loop 20 val "".

(** [hexString(b)]: two digits per byte. *)
Fixpoint hexString (b : list Z) : string :=
  match b with
  | [] => ""
  | tn :: r =>
      String (charAt hexDigit (Z.shiftr tn 4))
             (String (charAt hexDigit (Z.land tn 15)) (hexString r))
  end.

(** [appendHex(dst, i)] without [dst]: the digits of [i], leading zeros
    not printed. *)
Fixpoint appendHex_loop (j : nat) (i : Z) : string :=
  match j with
  | O => ""
  | S j' =>
      let v := Z.shiftr i (Z.of_nat j' * 4) in
      (if 0 <? v then String (charAt hexDigit (Z.land v 15)) "" else "")
      +:+ appendHex_loop j' i
  end.

Definition appendHex (i : Z) : string :=
  if i =? 0 then "0" else appendHex_loop 8 i.

Definition byteAt (p : list Z) (i : Z) : Z := nth (Z.to_nat i) p 0.

(** The inner loop [for j < IPv6len && p[j] == 0 && p[j+1] == 0
    { j += 2 }]. *)
Fixpoint zeroRunEnd (fuel : nat) (p : list Z) (j : Z) : Z :=
  match fuel with
  | O => j
  | S f =>
      if (j <? 16) && (byteAt p j =? 0) && (byteAt p (j + 1) =? 0)
      then zeroRunEnd f p (j + 2) else j
  end.

(** The loop that finds the longest run of zero groups, [(e0, e1)]. *)
Fixpoint longestZeroRun (fuel : nat) (p : list Z) (i e0 e1 : Z) : Z * Z :=
  match fuel with
  | O => (e0, e1)
  | S f =>
      if i <? 16 then
        let j := zeroRunEnd 8 p i in
        if (i <? j) && (e1 - e0 <? j - i)
        then longestZeroRun f p (j + 2) i j
        else longestZeroRun f p (i + 2) e0 e1
      else (e0, e1)
  end.

Definition group (p : list Z) (i : Z) : Z :=
  Z.lor (Z.shiftl (byteAt p i) 8) (byteAt p (i + 1)).

(** The printing loop, with ["::"] in place of the run of zeros. *)
Fixpoint printGroups (fuel : nat) (p : list Z) (e0 e1 i : Z) : string :=
  match fuel with
  | O => ""
  | S f =>
      if i <? 16 then
        if i =? e0 then
          "::" +:+ (if 16 <=? e1 then ""
                    else appendHex (group p e1)
                         +:+ printGroups f p e0 e1 (e1 + 2))
        else
          (if 0 <? i then ":" else "")
          +:+ appendHex (group p i) +:+ printGroups f p e0 e1 (i + 2)
      else ""
  end.

(** [ip.String()]. *)
Definition IP_String (ip : IP) : string :=
  if (length ip =? 0)%nat then "<nil>"
  else
    let p4 := To4 ip in
    if (length p4 =? IPv4len)%nat then
      uitoa (byteAt p4 0) +:+ "." +:+ uitoa (byteAt p4 1) +:+ "."
      +:+ uitoa (byteAt p4 2) +:+ "." +:+ uitoa (byteAt p4 3)
    else if negb (length ip =? IPv6len)%nat then "?" +:+ hexString ip
    else
      let '(e0, e1) := longestZeroRun 8 ip 0 (-1) (-1) in
      let '(e0, e1) := if e1 - e0 <=? 2 then (-1, -1) else (e0, e1) in
      printGroups 8 ip e0 e1 0.

(** [net.ParseIP(ip.String())]: an address of 4 or of 16 bytes is printed
    and parsed back as the 16-byte form of the same address; a slice of
    another length is printed as ["<nil>"] or as ["?"] and digits, which
    [net.ParseIP] refuses with [nil]. *)
Definition reparse (ip : IP) : IP := To16 ip.

(** *** [math/big] *)

(** [new(big.Int).SetBytes(b)]: the big-endian value of [b]. *)
Definition SetBytes (b : list Z) : Z :=
  fold_left (fun acc x => acc * 256 + x) b 0.

(** The [n] lowest bytes of [x], big-endian. *)
Fixpoint bytesOf (n : nat) (x : Z) : list Z :=
  match n with
  | O => []
  | S n' => bytesOf n' (x / 256) ++ [x mod 256]
  end.

(** [x.Bytes()] for [x >= 0]: big-endian, without leading zero bytes. *)
Definition Bytes (x : Z) : list Z :=
  if x <=? 0 then [] else bytesOf (Z.to_nat (Z.log2 x / 8 + 1)) x.

End GoNet.


(* ================================================================== *)
(** * Go's [net/http], [net/textproto] and [io/ioutil] packages *)
(* ================================================================== *)

Module GoHttp.
Import GoStrings.

(** An [error] value is its message; [nil] is [None]. *)
Definition error : Type := string.

(** An [io.Reader], by what reading it to the end gives: the bytes read
    and the error that stopped the reading, [nil] at a clean end. *)
Record Reader : Type := mkReader {
  Reader_data : string;
  Reader_err : option error
}.

(** [ioutil.ReadAll(r)]: the data read until an error or the end, and
    that error. *)
Definition ReadAll (r : Reader) : string * option error :=
  (Reader_data r, Reader_err r).

(** [http.Request]: the fields [RequestWebPage] sets.  A header holds one
    value per canonical key, which is what [Header.Set] leaves. *)
Record Request : Type := mkRequest {
  Method : string;
  URL : string;
  Body : option Reader;
  Header : gmap string string
}.

(** [http.Response]: the fields [RequestWebPage] reads. *)
Record Response : Type := mkResponse {
  Status : string;
  StatusCode : Z;
  RespBody : Reader
}.

(** [validHeaderFieldByte]: the characters of an HTTP token. *)
Definition validHeaderFieldByte (c : ascii) : bool :=
  let n := N_of_ascii c in
  (((48 <=? n) && (n <=? 57)) || ((65 <=? n) && (n <=? 90))
   || ((97 <=? n) && (n <=? 122)))%N
  || inCutset "!#$%&'*+-.^_`|~" c.

Fixpoint allValid (s : string) : bool :=
  match s with
  | EmptyString => true
  | String c r => validHeaderFieldByte c && allValid r
  end.

(** The second loop of [canonicalMIMEHeaderKey]: upper case at the start
    and after a hyphen, lower case elsewhere. *)
Fixpoint canonicalLoop (upper : bool) (s : string) : string :=
  match s with
  | EmptyString => EmptyString
  | String c r =>
      let n := N_of_ascii c in
      let c' :=
        if upper && ((97 <=? n) && (n <=? 122))%N
        then ascii_of_N (n - 32)
        else if negb upper && ((65 <=? n) && (n <=? 90))%N
             then ascii_of_N (n + 32)
             else c in
      String c' (canonicalLoop (Ascii.eqb c' "-") r)
  end.

(** [textproto.CanonicalMIMEHeaderKey]. *)
Definition CanonicalMIMEHeaderKey (s : string) : string :=
  if allValid s then canonicalLoop true s else s.

(** [h.Set(key, value)]. *)
Definition Header_Set (h : gmap string string) (key value : string)
  : gmap string string :=
  <[CanonicalMIMEHeaderKey key := value]> h.

Definition mapHeader (f : gmap string string -> gmap string string)
           (r : Request) : Request :=
  mkRequest (Method r) (URL r) (Body r) (f (Header r)).

End GoHttp.


(* ================================================================== *)
(** * Package [utils]: [amass/utils/network.go] *)
(* ================================================================== *)

Module Utils.
Import GoStrings GoNet.

(** [func IsIPv4(ip net.IP) bool]. *)
Definition IsIPv4 (ip : IP) : bool :=
  CountChar (IP_String ip) ":" <? 2.

(** [func IsIPv6(ip net.IP) bool]. *)
Definition IsIPv6 (ip : IP) : bool :=
  2 <=? CountChar (IP_String ip) ":".

(** [func ipToInt(ip net.IP)], returning the value and the bit width. *)
Definition ipToInt (ip : IP) : Z * Z :=
  let val := SetBytes ip in
  if IsIPv4 ip then (val, 32)
  else if IsIPv6 ip then (val, 128)
  else (val, 0).

(** The loop of [intToIP]:
    [for i := 1; i <= len(ipBytes); i++
       { ret[len(ret)-i] = ipBytes[len(ipBytes)-i] }];
    [k] counts the iterations left.  An index below zero panics. *)
Fixpoint intToIP_loop (k i : nat) (ipBytes ret : list Z) : option (list Z) :=
  match k with
  | O => Some ret
  | S k' =>
      if (length ret <? i)%nat then None
      else match ipBytes !! (length ipBytes - i)%nat with
           | Some b =>
               intToIP_loop k' (S i) ipBytes (<[(length ret - i)%nat := b]> ret)
           | None => None
           end
  end.

(** [func intToIP(ipInt *big.Int, bits int) net.IP]. *)
Definition intToIP (ipInt : Z) (bits : Z) : option IP :=
  let ipBytes := Bytes ipInt in
  let ret := replicate (Z.to_nat (bits ÷ 8)) 0 in
  intToIP_loop (length ipBytes) 1 ipBytes ret.

(** [func NetFirstLast(cidr *net.IPNet) (net.IP, net.IP)].  [hostLen] is
    computed on [uint], 64 bits wide. *)
Definition NetFirstLast (cidr : IPNet) : outcome (IP * IP) :=
  let firstIP := IPNet_IP cidr in
  let '(prefixLen, bits) := Size (IPNet_Mask cidr) in
  if prefixLen =? bits then
    let lastIP := firstIP in
    Returns (firstIP, lastIP)
  else
    let '(firstIPInt, bits) := ipToInt firstIP in
    let hostLen := (bits - prefixLen) mod 2 ^ 64 in
    let lastIPInt := 1 in
    let lastIPInt := Z.shiftl lastIPInt hostLen in
    let lastIPInt := lastIPInt - 1 in
    let lastIPInt := Z.lor lastIPInt firstIPInt in
    match intToIP lastIPInt bits with
    | Some lastIP => Returns (firstIP, lastIP)
    | None => Panics
    end.

(** The loop of [addrInc], on the bytes from the last to the first. *)
Fixpoint addrInc_loop (r : list Z) : list Z :=
  match r with
  | [] => []
  | b :: r' =>
      let b' := (b + 1) mod 256 in
      if 0 <? b' then b' :: r' else b' :: addrInc_loop r'
  end.

(** [func addrInc(ip net.IP)]: the new content of [ip]. *)
Definition addrInc (ip : IP) : IP := rev (addrInc_loop (rev ip)).

(** The loop of [addrDec], on the bytes from the last to the first. *)
Fixpoint addrDec_loop (r : list Z) : list Z :=
  match r with
  | [] => []
  | b :: r' =>
      if 0 <? b then (b - 1) mod 256 :: r'
      else (b - 1) mod 256 :: addrDec_loop r'
  end.

(** [func addrDec(ip net.IP)]: the new content of [ip]. *)
Definition addrDec (ip : IP) : IP := rev (addrDec_loop (rev ip)).

(** The slice expression [s[lo:hi]] on a slice whose capacity is its
    length. *)
Definition slice {A} (s : list A) (lo hi : Z) : option (list A) :=
  if (0 <=? lo) && (lo <=? hi) && (hi <=? Z.of_nat (length s))
  then Some (take (Z.to_nat (hi - lo)) (drop (Z.to_nat lo) s))
  else None.

(** The loop of [NetHosts]:
    [for ip := ...; cidr.Contains(ip); addrInc(ip)
       { ips = append(ips, net.ParseIP(ip.String())) }]. *)
Fixpoint NetHosts_loop (fuel : nat) (cidr : IPNet) (ip : IP)
         (ips : list IP) : option (list IP) :=
  match fuel with
  | O => None
  | S f =>
      if Contains cidr ip
      then NetHosts_loop f cidr (addrInc ip) (ips ++ [reparse ip])
      else Some ips
  end.

(** [func NetHosts(cidr *net.IPNet) []net.IP]. *)
Definition NetHosts (fuel : nat) (cidr : IPNet) : outcome (list IP) :=
  match NetHosts_loop fuel cidr (Mask (IPNet_IP cidr) (IPNet_Mask cidr)) []
  with
  | None => OutOfFuel
  | Some ips =>
      (* Remove network address and broadcast address *)
      match slice ips 1 (Z.of_nat (length ips) - 1) with
      | Some r => Returns r
      | None => Panics
      end
  end.

(** The loop of [RangeHosts]:
    [for ip := ...; !ip.Equal(stop); addrInc(ip)
       { if addr := net.ParseIP(ip.String()); addr != nil
           { ips = append(ips, addr) } }]. *)
Fixpoint RangeHosts_loop (fuel : nat) (ip stop : IP) (ips : list IP)
  : option (list IP) :=
  match fuel with
  | O => None
  | S f =>
      if Equal ip stop then Some ips
      else
        let addr := reparse ip in
        RangeHosts_loop f (addrInc ip) stop
                        (if isNil addr then ips else ips ++ [addr])
  end.

(** [func RangeHosts(start, end net.IP) []net.IP]. *)
Definition RangeHosts (fuel : nat) (start end_ : IP) : outcome (list IP) :=
  if isNil start || isNil end_ then Returns []
  else
    let start16 := To16 start in
    let end16 := To16 end_ in
    if isNil start16 || isNil end16 then Returns []
    else
      (* Check that the end address is higher than the start address *)
      if Compare end16 start16 <=? 0 then Returns []
      else
        let stop := addrInc (reparse end_) in
        match RangeHosts_loop fuel (reparse start) stop [] with
        | Some ips => Returns ips
        | None => OutOfFuel
        end.

(** The first loop of [CIDRSubset]:
    [for i := 0; i < offset; i++ { addrDec(first);
       if !cidr.Contains(first) { addrInc(first); break } }]. *)
Fixpoint walkDown (n : nat) (cidr : IPNet) (first : IP) : IP :=
  match n with
  | O => first
  | S n' =>
      let first := addrDec first in
      if negb (Contains cidr first) then addrInc first
      else walkDown n' cidr first
  end.

(** The second loop of [CIDRSubset]:
    [for i := 0; i < offset; i++ { addrInc(last);
       if !cidr.Contains(last) { addrDec(last); break } }]. *)
Fixpoint walkUp (n : nat) (cidr : IPNet) (last : IP) : IP :=
  match n with
  | O => last
  | S n' =>
      let last := addrInc last in
      if negb (Contains cidr last) then addrDec last
      else walkUp n' cidr last
  end.

(** [func CIDRSubset(cidr *net.IPNet, addr string, num int) []net.IP].
    [parsed] is [net.ParseIP(addr)]: [nil] when [addr] is not the text of
    an address, 16 bytes otherwise. *)
Definition CIDRSubset (fuel : nat) (cidr : IPNet) (parsed : IP) (num : Z)
  : outcome (list IP) :=
  let first := parsed in
  if negb (Contains cidr first) then Returns [first]
  else
    let offset := num ÷ 2 in
    (* Get the first address *)
    let first := walkDown (Z.to_nat offset) cidr first in
    (* Get the last address *)
    let last := walkUp (Z.to_nat offset) cidr parsed in
    (* Check that the addresses are not the same *)
    if Equal first last then Returns [first]
    else RangeHosts fuel first last.

(** The loop of [IPv6NibbleFormat]:
    [for i := li; i >= 0; i-- { reversed = append(reversed, parts[i]) }];
    [n] is [i + 1]. *)
Fixpoint reversed_loop (n : nat) (parts reversed : list string) : list string :=
  match n with
  | O => reversed
  | S i =>
      match parts !! i with
      | Some x => reversed_loop i parts (reversed ++ [x])
      | None => reversed
      end
  end.


(** [func ReverseIP(ip string) string]; the loop is that of
    [IPv6NibbleFormat]. *)
Definition ReverseIP (ip : string) : string :=
  let parts := SplitChar ip "." in
  Join (reversed_loop (length parts) parts []) ".".

(** [func HexString(b []byte) string]: [s[i*2], s[i*2+1] =
    hexDigit[tn>>4], hexDigit[tn&0xf]] for every byte [tn]. *)
Fixpoint HexString (b : list Z) : string :=
  match b with
  | [] => EmptyString
  | tn :: r =>
      String (charAt "0123456789abcdef" (Z.shiftr tn 4))
             (String (charAt "0123456789abcdef" (Z.land tn 15))
                     (HexString r))
  end.

(** *** [RequestWebPage] *)

Definition UserAgent : string :=
  "Mozilla/5.0 (Macintosh; Intel Mac OS X 10_14_2) AppleWebKit/537.36 (KHTML, like Gecko) Chrome/72.0.3626.119 Safari/537.36".
Definition Accept : string :=
  "text/html,application/xhtml+xml,application/xml;q=0.9,image/webp,*/*;q=0.8".
Definition AcceptLang : string := "en-US,en;q=0.8".

Section RequestWebPage.
Import GoHttp.

(** The outside of the function: the error of parsing a URL, if any;
    the value of the [Authorization] header that [SetBasicAuth] builds;
    and [defaultClient], whose state (cookie jar, connections) [Do]
    reads and changes. *)
Variable url_Parse_err : string -> option error.
Variable basicAuth : string -> string -> string.
Variable Client : Type.
Variable client_Do : Client -> Request -> Client * (Response + error).

(** [http.NewRequest(method, urlstring, body)]. *)
Definition NewRequest (method urlstring : string) (body : option Reader)
  : Request + error :=
  match url_Parse_err urlstring with
  | Some err => inr err
  | None => inl (mkRequest method urlstring body ∅)
  end.

(** [req.SetBasicAuth(uid, secret)]. *)
Definition SetBasicAuth (req : Request) (uid secret : string) : Request :=
  mapHeader (fun h => Header_Set h "Authorization" (basicAuth uid secret))
            req.

Definition nonEmpty (s : string) : bool :=
  negb (String.eqb s "").

(** The statements of [RequestWebPage] up to the call of
    [defaultClient.Do]: the request that is sent, or the error of
    [http.NewRequest].  [hvals] lists the pairs of the map in the order
    the [range] loop visits them; the [nil] map is the empty list. *)
Definition buildRequest (urlstring : string) (body : option Reader)
           (hvals : list (string * string)) (uid secret : string)
  : Request + error :=
  let method := "GET"%string in
  let method := if body is Some _ then "POST"%string else method in
  match NewRequest method urlstring body with
  | inr err => inr err
  | inl req =>
      let req :=
        if nonEmpty uid && nonEmpty secret
        then SetBasicAuth req uid secret else req in
      let req := mapHeader (fun h => Header_Set h "User-Agent" UserAgent) req in
      let req := mapHeader (fun h => Header_Set h "Accept" Accept) req in
      let req := mapHeader (fun h => Header_Set h "Accept-Language" AcceptLang) req in
      inl (fold_left
             (fun req kv => mapHeader (fun h => Header_Set h kv.1 kv.2) req)
             hvals req)
  end.

(** [func RequestWebPage(urlstring string, body io.Reader,
    hvals map[string]string, uid, secret string) (string, error)], with
    the state of [defaultClient] before and after. *)
Definition RequestWebPage (c : Client) (urlstring : string)
           (body : option Reader) (hvals : list (string * string))
           (uid secret : string)
  : Client * (string * option error) :=
  match buildRequest urlstring body hvals uid secret with
  | inr err => (c, (""%string, Some err))
  | inl req =>
      match client_Do c req with
      | (c', inr err) => (c', (""%string, Some err))
      | (c', inl resp) =>
          if (StatusCode resp <? 200) || (300 <=? StatusCode resp)
          then (c', (""%string, Some (Status resp)))
          else
            let '(in_, err) := ReadAll (RespBody resp) in
            (* resp.Body.Close() *)
            (c', (in_, None))
      end
  end.

End RequestWebPage.

End Utils.


(* ================================================================== *)
(** * Package [sources]: [cleanName] *)
(* ================================================================== *)

Module Sources.
Import GoStrings GoRegexp.

(** The alternatives [(20)|(25)|(2b)|(2f)|(3d)|(3a)|(40)]. *)
Definition tokenRE : regex :=
  Alt (Lit "20") (Alt (Lit "25") (Alt (Lit "2b") (Alt (Lit "2f")
      (Alt (Lit "3d") (Alt (Lit "3a") (Lit "40")))))).

(** [nameStripRE = regexp.MustCompile("^((20)|(25)|(2b)|(2f)|(3d)|(3a)|(40))+")],
    the part after the anchor [^]. *)
Definition nameStripRE : regex := Plus tokenRE.

(** One alternative of [nameStripRE] spelled by the two characters
    [a], [b]. *)
Definition isToken (a b : ascii) : bool :=
  existsb (String.eqb (String a (String b EmptyString)))
          ["20"; "25"; "2b"; "2f"; "3d"; "3a"; "40"]%string.

(** Length of the match of the greedy [(..|..)+] at the start of [s]:
    every alternative is two characters long, so the match is the longest
    run of alternatives. *)
Fixpoint leadRun (s : string) : nat :=
  match s with
  | String a (String b r) => if isToken a b then S (S (leadRun r)) else O
  | _ => O
  end.

(** [nameStripRE.FindStringIndex(name)]: [nil] when there is no match,
    the pair of the start and end of the match otherwise.  The expression
    is anchored, so a match starts at 0. *)
Definition FindStringIndex (name : string) : option (nat * nat) :=
  match leadRun name with
  | O => None
  | S n => Some (O, S n)
  end.

Lemma leadRun_le (s : string) : (leadRun s <= String.length s)%nat.
Proof.
  revert s. fix IH 1. intros [|a [|b r]]; simpl; try lia.
  destruct (isToken a b); [specialize (IH r)|]; lia.
Qed.

Lemma sliceFrom_length (n : nat) (s : string) :
  String.length (sliceFrom n s) = (String.length s - n)%nat.
Proof.
  revert s; induction n as [|n IH]; intros [|c r]; simpl; auto with lia.
Qed.

(** The loop
    [for { if i := nameStripRE.FindStringIndex(name); i != nil
           { name = name[i[1]:] } else { break } }]. *)
Equations? stripLoop (name : string) : string
  by wf (String.length name) lt :=
  stripLoop name with Logic.inspect (FindStringIndex name) => {
    | exist _ (Some i) Hfind => stripLoop (sliceFrom (snd i) name);
    | exist _ None _ => name }.
Proof.
  unfold FindStringIndex in *.
  pose proof (leadRun_le name).
  destruct (leadRun name) eqn:E; [discriminate|].
  inversion Hfind; subst; cbn [snd]. rewrite sliceFrom_length. lia.
Qed.

(** [func cleanName(name string) string]. *)
Definition cleanName (name : string) : string :=
  let name := TrimSpace (ToLower name) in
  let name := stripLoop name in
  let name := Trim name "-" in
  (* Remove dots at the beginning of names *)
  match name with
  | String c r =>
      if (1 <? Z.of_nat (String.length name)) && Ascii.eqb c "."
      then sliceFrom 1 name
      else name
  | EmptyString => name
  end.

(** *** The web archive crawler *)

Section Crawl.
Import GoHttp.

(** [utils.UniqueAppend(results, n)] is defined in a file of package
    [utils] that is not among the sources at hand; [crawl] is embedded
    over any such function. *)
Variable UniqueAppend : list string -> string -> list string.

(** The error of [q.SendStringGet(u)], if any. *)
Variable SendStringGet_err : string -> option error.

(** What one turn of the [select] statement receives: a link, a name,
    the tick of the 10 second timer, the closing of [q.Done()] or the
    closing of [service.Quit()]. *)
Inductive selected : Type :=
| RecvLink (l : string)
| RecvName (n : string)
| TimerFired
| QueueDone
| ServiceQuit.

(** The variables the loop changes: [results], [linksFilter], the URLs
    handed to [q.SendStringGet] and whether [q.Cancel()] was
    launched. *)
Record loopState : Type := mkLoopState {
  results : list string;
  linksFilter : gset string;
  enqueued : list string;
  cancelling : bool
}.

(** One turn of the loop: the next state, or [break loop]. *)
Definition turn (st : loopState) (ev : selected) : option loopState :=
  match ev with
  | RecvLink l =>
      if decide (l ∈ linksFilter st) then Some st
      else Some (mkLoopState (results st) ({[ l ]} ∪ linksFilter st)
                             (enqueued st ++ [l]) (cancelling st))
  | RecvName n =>
      Some (mkLoopState (UniqueAppend (results st) n) (linksFilter st)
                        (enqueued st) (cancelling st))
  | TimerFired =>
      Some (mkLoopState (results st) (linksFilter st) (enqueued st) true)
  | QueueDone => None
  | ServiceQuit => None
  end.

(** The loop over the sequence of what its [select] receives: the state
    at the [break], or [None] while the loop is still waiting at the
    end of the sequence. *)
Fixpoint crawlLoop (st : loopState) (trace : list selected)
  : option loopState :=
  match trace with
  | [] => None
  | ev :: rest =>
      match turn st ev with
      | None => Some st
      | Some st' => crawlLoop st' rest
      end
  end.

(** The variables of the loop after the turns of [trace], up to the
    [break] if there is one. *)
Fixpoint stateAfter (st : loopState) (trace : list selected) : loopState :=
  match trace with
  | [] => st
  | ev :: rest =>
      match turn st ev with
      | None => st
      | Some st' => stateAfter st' rest
      end
  end.

(** [func crawl(service core.Service, base, domain, sub string)
    ([]string, error)]; [year] is [strconv.Itoa(time.Now().Year())] and
    [trace] what the [select] statement receives, turn after turn. *)
Definition crawl (base domain sub year : string) (trace : list selected)
  : option (list string * option error) :=
  let results0 : list string := [] in
  let u := base +:+ "/" +:+ year +:+ "/" +:+ sub in
  match SendStringGet_err u with
  | Some err =>
      Some (results0, Some ("Crawler error: GET " +:+ u +:+ " - " +:+ err))
  | None =>
      match crawlLoop (mkLoopState results0 ∅ [u] false) trace with
      | Some st => Some (results st, None)
      | None => None
      end
  end.

End Crawl.

(** The names received, in order. *)
Definition namesOf (trace : list selected) : list string :=
  omap (fun ev => if ev is RecvName n then Some n else None) trace.

(** A turn that does not end the loop. *)
Definition goesOn (ev : selected) : bool :=
  match ev with
  | QueueDone | ServiceQuit => false
  | _ => true
  end.

(** What [fetchbot] documents of its queue, in terms of what the loop
    receives: [q.Cancel()] closes the queue, and [q.Done()] is closed when
    the queue is closed.  So in a run of the loop, once [q.Cancel()] has
    been launched a later turn of the [select] receives from
    [q.Done()]. *)
Definition cancelClosesQueue (UniqueAppend : list string -> string -> list string)
           (st : loopState) (trace : list selected) : Prop :=
  forall pre rest : list selected,
    trace = pre ++ rest -> forallb goesOn pre = true ->
    cancelling (stateAfter UniqueAppend st pre) = true ->
    In QueueDone rest.

End Sources.

(* ================================================================== *)
(** * The clean-up of names as the specification words it *)
(* ================================================================== *)

Module CleanNameSpec.
Import GoStrings Sources.








End CleanNameSpec.

(* ================================================================== *)
(** * Reversal of a string, as the specification words it *)
(* ================================================================== *)

Module NibbleSpec.




End NibbleSpec.


(* ================================================================== *)
(** * Ranges of addresses, as the specification words them *)
(* ================================================================== *)

Module RangeSpec.
Import GoNet.

(** The addresses [s], [s + 1], ..., [s + n - 1] in 16-byte form. *)
Definition addrSeq (s : Z) (n : nat) : list IP :=
  map (fun k => bytesOf 16 (s + Z.of_nat k)) (seq 0 n).

End RangeSpec.


(* ================================================================== *)
(** * Reading hexadecimal text back *)
(* ================================================================== *)

Module HexSpec.

(** The value of a hexadecimal digit, [-1] for another character. *)
Definition unhexChar (c : ascii) : Z :=
  let n := Z.of_N (N_of_ascii c) in
  if (48 <=? n) && (n <=? 57) then n - 48
  else if (97 <=? n) && (n <=? 102) then n - 87
  else -1.

(** The bytes that a text of two digits per byte spells. *)
Fixpoint unhex (s : string) : list Z :=
  match s with
  | String hi (String lo r) => 16 * unhexChar hi + unhexChar lo :: unhex r
  | _ => []
  end.

End HexSpec.


(* ================================================================== *)
(** * Theorems *)
(* ================================================================== *)

Import GoStrings GoRegexp GoNet Utils Sources RangeSpec.

Example cleanName_ex1 : cleanName " FOO.BAR.EXAMPLE.COM " = "foo.bar.example.com"%string.
Proof. reflexivity. Qed.
Example cleanName_ex2 : cleanName "2f2fwww.example.com" = "www.example.com"%string.
Proof. reflexivity. Qed.
Example cleanName_ex3 : cleanName "-leading-and-trailing-" = "leading-and-trailing"%string.
Proof. reflexivity. Qed.
Example cleanName_ex4 : cleanName ".example.com" = "example.com"%string.
Proof. reflexivity. Qed.
Example cleanName_ex5 : cleanName "." = "."%string.
Proof. reflexivity. Qed.

(** ** [cleanName] *)

Section CleanNameFacts.
Import CleanNameSpec.


















(** *** The regular expression and its greedy match *)

Lemma tokenRE_inv (w : string) :
  Matches tokenRE w ->
  exists a b, w = String a (String b EmptyString) /\ isToken a b = true.
Proof.
  unfold tokenRE. intros H.
  repeat match goal with
         | H : Matches (Alt _ _) _ |- _ => inversion H; subst; clear H
         | H : Matches (Lit _) _ |- _ => inversion H; subst; clear H
         end; eexists _, _; split; reflexivity.
Qed.

Lemma tokenRE_intro (a b : ascii) :
  isToken a b = true -> Matches tokenRE (String a (String b EmptyString)).
Proof.
  unfold isToken, tokenRE. cbn [existsb]. intros H.
  repeat (apply orb_prop in H; destruct H as [H|H]);
    try discriminate H; apply String.eqb_eq in H; rewrite H;
    eauto 10 using Matches.
Qed.

Lemma nameStripRE_run (w : string) :
  Matches nameStripRE w ->
  forall rest, (String.length w <= leadRun (w +:+ rest))%nat.
Proof.
  unfold nameStripRE.
  remember (Plus tokenRE) as re eqn:Ere. intros H.
  induction H as [| | |r w H _|r w1 w2 H1 _ H2 IH2]; try discriminate Ere;
    inversion Ere; subst; intros rest.
  - apply tokenRE_inv in H as (a & b & -> & Hab).
    simpl. rewrite Hab. lia.
  - apply tokenRE_inv in H1 as (a & b & -> & Hab).
    specialize (IH2 eq_refl rest).
    change (String a (String b EmptyString) +:+ w2)
      with (String a (String b w2)).
    change (String a (String b w2) +:+ rest)
      with (String a (String b (w2 +:+ rest))).
    simpl. rewrite Hab. lia.
Qed.

Lemma nameStripRE_nonempty (w : string) :
  Matches nameStripRE w -> (2 <= String.length w)%nat.
Proof.
  unfold nameStripRE.
  remember (Plus tokenRE) as re eqn:Ere. intros H.
  induction H as [| | |r w H _|r w1 w2 H1 _ H2 IH2]; try discriminate Ere;
    inversion Ere; subst.
  - apply tokenRE_inv in H as (a & b & -> & _). simpl. lia.
  - apply tokenRE_inv in H1 as (a & b & -> & _).
    change (String a (String b EmptyString) +:+ w2)
      with (String a (String b w2)). simpl. lia.
Qed.


Lemma sliceTo_length (n : nat) (s : string) :
  (n <= String.length s)%nat -> String.length (sliceTo n s) = n.
Proof.
  revert s; induction n as [|n IH]; intros [|c r]; simpl; try lia.
  intros H. rewrite IH; lia.
Qed.

Lemma leadRun_Matches (s : string) :
  leadRun s <> O -> Matches nameStripRE (sliceTo (leadRun s) s).
Proof.
  unfold nameStripRE.
  revert s. fix IH 1. intros [|a [|b r]]; simpl; try congruence.
  destruct (isToken a b) eqn:E; [intros _|congruence].
  destruct (leadRun r) as [|n] eqn:R.
  - cbn [sliceTo]. apply MPlus1, tokenRE_intro, E.
  - change (sliceTo (S (S (S n))) (String a (String b r)))
      with (String a (String b EmptyString) +:+ sliceTo (S n) r).
    apply MPlusS; [apply tokenRE_intro, E|].
    rewrite <- R. apply IH. lia.
Qed.

(** [FindStringIndex] is the leftmost, greedy match of the anchored
    expression: [nil] exactly when no prefix of the text is a word of
    [nameStripRE], and the longest such prefix otherwise. *)
Lemma FindStringIndex_greedy (s : string) :
  match FindStringIndex s with
  | None => forall w rest, s = w +:+ rest -> ~ Matches nameStripRE w
  | Some (b, e) =>
      b = O /\ Matches nameStripRE (sliceTo e s)
      /\ String.length (sliceTo e s) = e
      /\ forall w rest, s = w +:+ rest -> Matches nameStripRE w ->
                        (String.length w <= e)%nat
  end.
Proof.
  unfold FindStringIndex. destruct (leadRun s) as [|n] eqn:E.
  - intros w rest -> H. pose proof (nameStripRE_run w H rest) as L.
    rewrite E in L. pose proof (nameStripRE_nonempty w H). lia.
  - rewrite <- E. repeat split.
    + apply leadRun_Matches. lia.
    + apply sliceTo_length, leadRun_le.
    + intros w rest -> H. now apply nameStripRE_run.
Qed.


End CleanNameFacts.

(** ** [IPv6NibbleFormat] *)

Section NibbleFacts.
Import NibbleSpec.

Lemma reversed_loop_rev (n : nat) (parts acc : list string) :
  (n <= length parts)%nat ->
  reversed_loop n parts acc = acc ++ rev (take n parts).
Proof.
  revert acc. induction n as [|n IH]; intros acc Hn; simpl.
  - now rewrite app_nil_r.
  - destruct (lookup_lt_is_Some_2 parts n ltac:(lia)) as [x Hx].
    rewrite Hx, IH by lia.
    rewrite (take_S_r _ _ _ Hx), rev_app_distr, <- app_assoc.
    reflexivity.
Qed.






End NibbleFacts.

(** ** The text of an address and the classification by colons *)

Section ColonFacts.

Local Abbreviation colons s := (CountChar s ":"%char).

Lemma CountChar_app (a b : string) (c : ascii) :
  CountChar (a +:+ b) c = CountChar a c + CountChar b c.
Proof.
  induction a as [|x a IH]; [reflexivity|].
  change (String x a +:+ b) with (String x (a +:+ b)).
  simpl. rewrite IH. lia.
Qed.

Lemma CountChar_nonneg (s : string) (c : ascii) : 0 <= CountChar s c.
Proof.
  induction s as [|x s IH]; simpl; [lia|].
  destruct (Ascii.eqb x c); lia.
Qed.

Lemma digitChar_not_colon (d : Z) :
  d <= 9 -> Ascii.eqb (digitChar d) ":" = false.
Proof.
  intros Hd. apply Ascii.eqb_neq. intros E. unfold digitChar in E.
  apply (f_equal N_of_ascii) in E.
  rewrite N_ascii_embedding in E by lia.
  change (N_of_ascii ":") with 58%N in E. lia.
Qed.

Lemma hexDigit_not_colon (i : Z) :
  Ascii.eqb (charAt hexDigit i) ":" = false.
Proof.
  unfold charAt, hexDigit. generalize (Z.to_nat i) as n. intros n.
  do 16 (destruct n as [|n]; [reflexivity|]). reflexivity.
Qed.

Lemma uitoa_loop_colons (fuel : nat) (val : Z) (buf : string) :
  colons (uitoa_loop fuel val buf) = colons buf.
Proof.
  revert val buf. induction fuel as [|f IH]; intros val buf; simpl;
    [reflexivity|].
  destruct (10 <=? val) eqn:E.
  - rewrite IH. simpl. rewrite digitChar_not_colon; [lia|].
    pose proof (Z.mod_pos_bound val 10). lia.
  - simpl. rewrite digitChar_not_colon; [lia|].
    apply Z.leb_gt in E. lia.
Qed.

Lemma uitoa_colons (val : Z) : colons (uitoa val) = 0.
Proof.
  unfold uitoa. destruct (val =? 0); [reflexivity|].
  apply uitoa_loop_colons.
Qed.

Lemma hexString_colons (b : list Z) : colons (hexString b) = 0.
Proof.
  induction b as [|tn r IH]; simpl; [reflexivity|].
  rewrite !hexDigit_not_colon. lia.
Qed.

Lemma appendHex_colons (i : Z) : colons (appendHex i) = 0.
Proof.
  unfold appendHex. destruct (i =? 0); [reflexivity|].
  generalize 8%nat as j. induction j as [|j IH]; [reflexivity|].
  cbn [appendHex_loop]. rewrite CountChar_app, IH.
  destruct (0 <? _); simpl; rewrite ?hexDigit_not_colon; lia.
Qed.

Lemma printGroups_S (f : nat) (p : list Z) (e0 e1 i : Z) :
  printGroups (S f) p e0 e1 i
  = if i <? 16 then
      if i =? e0 then
        "::" +:+ (if 16 <=? e1 then ""
                  else appendHex (group p e1)
                       +:+ printGroups f p e0 e1 (e1 + 2))
      else
        (if 0 <? i then ":" else "")
        +:+ appendHex (group p i) +:+ printGroups f p e0 e1 (i + 2)
    else "".
Proof. reflexivity. Qed.

(** Past the first group every turn of the printing loop writes a
    colon. *)
Lemma printGroups_colon (f : nat) (p : list Z) (e0 e1 i : Z) :
  0 < i < 16 -> 1 <= colons (printGroups (S f) p e0 e1 i).
Proof.
  intros Hi. rewrite printGroups_S.
  replace (i <? 16) with true by (symmetry; apply Z.ltb_lt; lia).
  replace (0 <? i) with true by (symmetry; apply Z.ltb_lt; lia).
  destruct (i =? e0); rewrite !CountChar_app.
  - pose proof (CountChar_nonneg
      (if 16 <=? e1 then ""
       else appendHex (group p e1) +:+ printGroups f p e0 e1 (e1 + 2)) ":").
    change (colons "::") with 2. lia.
  - pose proof (CountChar_nonneg (printGroups f p e0 e1 (i + 2)) ":").
    rewrite appendHex_colons. change (colons ":") with 1. lia.
Qed.

(** The text of eight groups has at least two colons, whatever run is
    shortened. *)
Lemma printGroups_colons (p : list Z) (e0 e1 : Z) :
  2 <= colons (printGroups 8 p e0 e1 0).
Proof.
  rewrite printGroups_S. change (0 <? 16) with true.
  destruct (0 =? e0).
  - rewrite CountChar_app. change (colons "::") with 2.
    pose proof (CountChar_nonneg
      (if 16 <=? e1 then ""
       else appendHex (group p e1) +:+ printGroups 7 p e0 e1 (e1 + 2)) ":").
    lia.
  - change (0 <? 0) with false. rewrite !CountChar_app, appendHex_colons.
    change (colons "") with 0. change (0 + 2) with 2.
    rewrite printGroups_S. change (2 <? 16) with true.
    destruct (2 =? e0).
    + rewrite CountChar_app. change (colons "::") with 2.
      pose proof (CountChar_nonneg
        (if 16 <=? e1 then ""
         else appendHex (group p e1) +:+ printGroups 6 p e0 e1 (e1 + 2)) ":").
      lia.
    + change (0 <? 2) with true. rewrite !CountChar_app, appendHex_colons.
      change (colons ":") with 1.
      pose proof (printGroups_colon 5 p e0 e1 (2 + 2) ltac:(lia)). lia.
Qed.

Lemma To4_length (ip : IP) :
  length (To4 ip) = 4%nat \/ To4 ip = [].
Proof.
  unfold To4, IPv4len, IPv6len.
  destruct (length ip =? 4)%nat eqn:E4; [left; now apply Nat.eqb_eq|].
  destruct (length ip =? 16)%nat eqn:E16; simpl; [|now right].
  destruct (_ && _ && _); [left|now right].
  apply Nat.eqb_eq in E16. rewrite length_drop. lia.
Qed.

(** The number of colons in the text of an address: none for the empty
    slice, for an address with a 4-byte form and for a slice that is no
    address; two or more for any other 16-byte address. *)
Lemma String_colons (ip : IP) :
  if (length ip =? 16)%nat && isNil (To4 ip)
  then 2 <= colons (IP_String ip)
  else colons (IP_String ip) = 0.
Proof.
  unfold IP_String, IPv4len, IPv6len.
  destruct (length ip =? 0)%nat eqn:E0.
  { apply Nat.eqb_eq in E0. destruct ip; [reflexivity|discriminate]. }
  destruct (To4_length ip) as [H4|H4]; rewrite H4.
  - replace (isNil (To4 ip)) with false
      by (destruct (To4 ip); [discriminate H4|reflexivity]).
    rewrite andb_false_r. simpl.
    rewrite !CountChar_app, !uitoa_colons. reflexivity.
  - change (isNil []) with true.
    change (length (@nil Z) =? 4)%nat with false. cbv iota.
    rewrite andb_true_r.
    destruct (length ip =? 16)%nat; cbv iota beta delta [negb].
    + destruct (longestZeroRun 8 ip 0 (-1) (-1)) as [e0 e1].
      destruct (e1 - e0 <=? 2); apply printGroups_colons.
    + rewrite CountChar_app, hexString_colons. reflexivity.
Qed.

(** [IsIPv4] holds of every slice but the 16-byte addresses that have no
    4-byte form. *)
Lemma IsIPv4_bytes (ip : IP) :
  IsIPv4 ip = negb ((length ip =? 16)%nat && isNil (To4 ip)).
Proof.
  unfold IsIPv4. pose proof (String_colons ip) as H.
  destruct ((length ip =? 16)%nat && isNil (To4 ip)); simpl.
  - apply Z.ltb_ge, H.
  - rewrite H. reflexivity.
Qed.

Lemma IsIPv6_negb (ip : IP) : IsIPv6 ip = negb (IsIPv4 ip).
Proof.
  unfold IsIPv4, IsIPv6. rewrite Z.leb_antisym. reflexivity.
Qed.

(** C9. [IsIPv4] holds exactly when the text of the address has fewer
    than two colons and [IsIPv6] exactly when it has two or more; one of
    them holds and never both; two addresses whose texts have the same
    number of colons are classified alike; and the byte length does not
    decide: of two 16-byte addresses, [::ffff:1.2.3.4] is IPv4 and
    [2001:db8::1] is IPv6. *)
Theorem IsIPv4_IsIPv6_by_colons :
  (forall ip : IP, IsIPv4 ip = true <-> colons (IP_String ip) < 2)
  /\ (forall ip : IP, IsIPv6 ip = true <-> 2 <= colons (IP_String ip))
  /\ (forall ip : IP, IsIPv4 ip = negb (IsIPv6 ip))
  /\ (forall ip ip' : IP,
         colons (IP_String ip) = colons (IP_String ip') ->
         IsIPv4 ip = IsIPv4 ip' /\ IsIPv6 ip = IsIPv6 ip')
  /\ (length (IPv4 1 2 3 4) = 16%nat /\ IsIPv4 (IPv4 1 2 3 4) = true
      /\ IsIPv6 (IPv4 1 2 3 4) = false)
  /\ (length [32; 1; 13; 184; 0; 0; 0; 0; 0; 0; 0; 0; 0; 0; 0; 1] = 16%nat
      /\ IsIPv4 [32; 1; 13; 184; 0; 0; 0; 0; 0; 0; 0; 0; 0; 0; 0; 1] = false
      /\ IsIPv6 [32; 1; 13; 184; 0; 0; 0; 0; 0; 0; 0; 0; 0; 0; 0; 1] = true).
Proof.
  split; [|split; [|split; [|split; [|split]]]].
  - intros ip. unfold IsIPv4. apply Z.ltb_lt.
  - intros ip. unfold IsIPv6. apply Z.leb_le.
  - intros ip. rewrite IsIPv6_negb. symmetry. apply negb_involutive.
  - intros ip ip' H. unfold IsIPv4, IsIPv6. now rewrite H.
  - split; [reflexivity|split; vm_compute; reflexivity].
  - split; [reflexivity|split; vm_compute; reflexivity].
Qed.

End ColonFacts.

(** ** Bytes and big-endian values *)

Section ByteFacts.

Lemma is_bytes_Forall (l : list Z) :
  is_bytes l = true <-> Forall (fun b => 0 <= b < 256) l.
Proof.
  unfold is_bytes. rewrite forallb_forall, Forall_forall.
  split; intros H b Hb.
  - apply list_elem_of_In, H in Hb. lia.
  - apply list_elem_of_In, H in Hb. lia.
Qed.

Lemma is_bytes_app (l1 l2 : list Z) :
  is_bytes (l1 ++ l2) = is_bytes l1 && is_bytes l2.
Proof. apply forallb_app. Qed.

Lemma bytesEqual_eq (x y : list Z) : bytesEqual x y = true <-> x = y.
Proof.
  revert y. induction x as [|a x IH]; intros [|b y]; simpl;
    try (split; [discriminate|congruence]); [tauto|].
  rewrite andb_true_iff, IH, Z.eqb_eq. split; [intros []|intros [= ]];
    subst; auto.
Qed.

Lemma bytesEqual_refl (x : list Z) : bytesEqual x x = true.
Proof. now apply bytesEqual_eq. Qed.

Lemma bytesOf_length (n : nat) (v : Z) : length (bytesOf n v) = n.
Proof.
  revert v. induction n as [|n IH]; intros v; simpl; [reflexivity|].
  rewrite length_app, IH. simpl. lia.
Qed.

Lemma bytesOf_is_bytes (n : nat) (v : Z) : is_bytes (bytesOf n v) = true.
Proof.
  revert v. induction n as [|n IH]; intros v; simpl; [reflexivity|].
  rewrite is_bytes_app, IH. simpl.
  pose proof (Z.mod_pos_bound v 256). 
  replace (0 <=? v mod 256) with true by (symmetry; apply Z.leb_le; lia).
  replace (v mod 256 <? 256) with true by (symmetry; apply Z.ltb_lt; lia).
  reflexivity.
Qed.

Lemma SetBytes_snoc (l : list Z) (x : Z) :
  SetBytes (l ++ [x]) = SetBytes l * 256 + x.
Proof. unfold SetBytes. now rewrite fold_left_app. Qed.

Lemma SetBytes_bytesOf (n : nat) (v : Z) :
  SetBytes (bytesOf n v) = v mod 256 ^ Z.of_nat n.
Proof.
  revert v. induction n as [|n IH]; intros v.
  - simpl. now rewrite Z.mod_1_r.
  - cbn [bytesOf]. rewrite SetBytes_snoc, IH.
    rewrite Nat2Z.inj_succ, Z.pow_succ_r by lia.
    rewrite (Z.rem_mul_r v 256 (256 ^ Z.of_nat n)) by lia. lia.
Qed.

Lemma bytesOf_SetBytes (l : list Z) :
  is_bytes l = true -> bytesOf (length l) (SetBytes l) = l.
Proof.
  induction l as [|x l IH] using rev_ind; intros H; [reflexivity|].
  rewrite is_bytes_app in H. apply andb_true_iff in H as [Hl Hx].
  simpl in Hx. rewrite andb_true_r in Hx.
  apply andb_true_iff in Hx as [Hx0 Hx1].
  apply Z.leb_le in Hx0. apply Z.ltb_lt in Hx1.
  rewrite length_app, Nat.add_1_r, SetBytes_snoc. cbn [bytesOf].
  replace ((SetBytes l * 256 + x) / 256) with (SetBytes l)
    by (apply Z.div_unique with x; lia).
  replace ((SetBytes l * 256 + x) mod 256) with x
    by (apply Z.mod_unique with (SetBytes l); lia).
  now rewrite IH.
Qed.

Lemma SetBytes_range (l : list Z) :
  is_bytes l = true -> 0 <= SetBytes l < 256 ^ Z.of_nat (length l).
Proof.
  intros H. pose proof (SetBytes_bytesOf (length l) (SetBytes l)) as E.
  rewrite (bytesOf_SetBytes l H) in E. rewrite E.
  apply Z.mod_pos_bound. lia.
Qed.

Lemma bytesOf_mod (n : nat) (v : Z) :
  bytesOf n (v mod 256 ^ Z.of_nat n) = bytesOf n v.
Proof.
  rewrite <- SetBytes_bytesOf.
  rewrite <- (bytesOf_length n v) at 1.
  apply bytesOf_SetBytes, bytesOf_is_bytes.
Qed.

Lemma bytesOf_inj (n : nat) (a b : Z) :
  bytesOf n a = bytesOf n b <->
  a mod 256 ^ Z.of_nat n = b mod 256 ^ Z.of_nat n.
Proof.
  split; intros H.
  - rewrite <- !SetBytes_bytesOf. now rewrite H.
  - rewrite <- (bytesOf_mod n a), <- (bytesOf_mod n b). now rewrite H.
Qed.

(** A slice of bytes is the big-endian form of its value. *)
Lemma bytes_canonical (l : list Z) (n : nat) :
  is_bytes l = true -> length l = n -> l = bytesOf n (SetBytes l).
Proof. intros H <-. symmetry. now apply bytesOf_SetBytes. Qed.

(** [addrInc] adds one, modulo the width of the slice. *)
Lemma addrInc_bytesOf (n : nat) (v : Z) :
  addrInc (bytesOf n v) = bytesOf n (v + 1).
Proof.
  unfold addrInc. revert v. induction n as [|n IH]; intros v;
    [reflexivity|].
  cbn [bytesOf]. rewrite rev_app_distr. cbn [rev app addrInc_loop].
  replace ((v mod 256 + 1) mod 256) with ((v + 1) mod 256)
    by (now rewrite Zplus_mod_idemp_l).
  pose proof (Z.mod_pos_bound v 256 ltac:(lia)) as Hv.
  pose proof (Z.mod_pos_bound (v + 1) 256 ltac:(lia)) as Hv1.
  pose proof (Z.div_mod v 256 ltac:(lia)) as Dv.
  destruct (0 <? (v + 1) mod 256) eqn:E.
  - apply Z.ltb_lt in E. cbn [rev]. rewrite rev_involutive.
    replace ((v + 1) / 256) with (v / 256); [reflexivity|].
    apply Z.div_unique with ((v + 1) mod 256); [lia|].
    assert ((v + 1) mod 256 = v mod 256 + 1); [|lia].
    symmetry. apply Z.mod_unique with (v / 256); [|lia].
    assert (v mod 256 <> 255); [|lia].
    intros C. rewrite <- Zplus_mod_idemp_l, C in E.
    change ((255 + 1) mod 256) with 0 in E. lia.
  - apply Z.ltb_ge in E. assert (E0 : (v + 1) mod 256 = 0) by lia.
    cbn [rev]. rewrite IH, E0.
    replace ((v + 1) / 256) with (v / 256 + 1); [reflexivity|].
    apply Z.div_unique with 0; [lia|].
    pose proof (Z.div_mod (v + 1) 256 ltac:(lia)) as D1.
    rewrite E0 in D1.
    assert (v mod 256 = 255); [|lia].
    rewrite <- Zplus_mod_idemp_l in E0.
    destruct (Z.eq_dec (v mod 256) 255) as [|N]; [assumption|].
    rewrite Z.mod_small in E0; lia.
Qed.

(** [addrDec] subtracts one, modulo the width of the slice. *)
Lemma addrDec_bytesOf (n : nat) (v : Z) :
  addrDec (bytesOf n v) = bytesOf n (v - 1).
Proof.
  unfold addrDec. revert v. induction n as [|n IH]; intros v;
    [reflexivity|].
  cbn [bytesOf]. rewrite rev_app_distr. cbn [rev app addrDec_loop].
  replace ((v mod 256 - 1) mod 256) with ((v - 1) mod 256)
    by (now rewrite Zminus_mod_idemp_l).
  pose proof (Z.mod_pos_bound v 256 ltac:(lia)) as Hv.
  pose proof (Z.mod_pos_bound (v - 1) 256 ltac:(lia)) as Hv1.
  pose proof (Z.div_mod v 256 ltac:(lia)) as Dv.
  destruct (0 <? v mod 256) eqn:E.
  - apply Z.ltb_lt in E. cbn [rev]. rewrite rev_involutive.
    replace ((v - 1) / 256) with (v / 256); [reflexivity|].
    apply Z.div_unique with (v mod 256 - 1); lia.
  - apply Z.ltb_ge in E. assert (E0 : v mod 256 = 0) by lia.
    cbn [rev]. rewrite IH.
    replace ((v - 1) / 256) with (v / 256 - 1); [reflexivity|].
    apply Z.div_unique with 255; lia.
Qed.

End ByteFacts.

(** ** [RangeHosts] *)

Section RangeFacts.

Lemma SetBytes_cons (x : Z) (l : list Z) :
  SetBytes (x :: l) = x * 256 ^ Z.of_nat (length l) + SetBytes l.
Proof.
  induction l as [|y l IH] using rev_ind.
  - unfold SetBytes. simpl. lia.
  - rewrite app_comm_cons, !SetBytes_snoc, IH, length_app, Nat.add_1_r.
    rewrite Nat2Z.inj_succ, Z.pow_succ_r by lia. lia.
Qed.

Lemma is_bytes_cons (x : Z) (l : list Z) :
  is_bytes (x :: l) = true <-> 0 <= x < 256 /\ is_bytes l = true.
Proof.
  simpl. rewrite !andb_true_iff, Z.leb_le, Z.ltb_lt. tauto.
Qed.

(** [bytes.Compare] on two slices of bytes of one length orders them by
    value. *)
Lemma Compare_SetBytes (a b : list Z) :
  is_bytes a = true -> is_bytes b = true -> length a = length b ->
  Compare a b
  = if SetBytes a <? SetBytes b then -1
    else if SetBytes b <? SetBytes a then 1 else 0.
Proof.
  revert b. induction a as [|x a IH]; intros [|y b] Ha Hb Hl;
    try discriminate Hl; [reflexivity|].
  apply is_bytes_cons in Ha as [Hx Ha]. apply is_bytes_cons in Hb as [Hy Hb].
  injection Hl as Hl.
  pose proof (SetBytes_range a Ha) as Ra.
  pose proof (SetBytes_range b Hb) as Rb.
  specialize (IH b Ha Hb Hl).
  cbn [Compare]. rewrite !SetBytes_cons. rewrite Hl in *.
  set (P := 256 ^ Z.of_nat (length b)) in *.
  destruct (x <? y) eqn:Exy.
  - apply Z.ltb_lt in Exy.
    replace (x * P + SetBytes a <? y * P + SetBytes b) with true;
      [reflexivity|]. symmetry. apply Z.ltb_lt. nia.
  - apply Z.ltb_ge in Exy. destruct (y <? x) eqn:Eyx.
    + apply Z.ltb_lt in Eyx.
      replace (x * P + SetBytes a <? y * P + SetBytes b) with false
        by (symmetry; apply Z.ltb_ge; nia).
      replace (y * P + SetBytes b <? x * P + SetBytes a) with true
        by (symmetry; apply Z.ltb_lt; nia).
      reflexivity.
    + apply Z.ltb_ge in Eyx. assert (x = y) by lia. subst y.
      rewrite IH.
      destruct (SetBytes a <? SetBytes b) eqn:E1.
      * apply Z.ltb_lt in E1.
        replace (x * P + SetBytes a <? x * P + SetBytes b) with true
          by (symmetry; apply Z.ltb_lt; lia). reflexivity.
      * apply Z.ltb_ge in E1.
        replace (x * P + SetBytes a <? x * P + SetBytes b) with false
          by (symmetry; apply Z.ltb_ge; lia).
        destruct (SetBytes b <? SetBytes a) eqn:E2.
        -- apply Z.ltb_lt in E2.
           replace (x * P + SetBytes b <? x * P + SetBytes a) with true
             by (symmetry; apply Z.ltb_lt; lia). reflexivity.
        -- apply Z.ltb_ge in E2.
           replace (x * P + SetBytes b <? x * P + SetBytes a) with false
             by (symmetry; apply Z.ltb_ge; lia). reflexivity.
Qed.

Lemma To16_cases (ip : IP) :
  (length ip = 4%nat /\ To16 ip = v4InV6Prefix ++ ip)
  \/ (length ip = 16%nat /\ To16 ip = ip)
  \/ (length ip <> 4%nat /\ length ip <> 16%nat /\ To16 ip = []).
Proof.
  unfold To16, IPv4len, IPv6len.
  destruct (length ip =? 4)%nat eqn:E4.
  - apply Nat.eqb_eq in E4. left. split; [assumption|].
    destruct ip as [|a [|b [|c [|d [|e r]]]]]; try discriminate E4.
    reflexivity.
  - apply Nat.eqb_neq in E4. destruct (length ip =? 16)%nat eqn:E16.
    + apply Nat.eqb_eq in E16. right; left. now split.
    + apply Nat.eqb_neq in E16. right; right. now repeat split.
Qed.

Lemma To16_length (ip : IP) : To16 ip <> [] -> length (To16 ip) = 16%nat.
Proof.
  destruct (To16_cases ip) as [[H ->]|[[H ->]|(_ & _ & ->)]];
    intros N; [|assumption|congruence].
  rewrite length_app, H. reflexivity.
Qed.

Lemma To16_is_bytes (ip : IP) :
  is_bytes ip = true -> is_bytes (To16 ip) = true.
Proof.
  intros Hb.
  destruct (To16_cases ip) as [[H ->]|[[H ->]|(_ & _ & ->)]];
    [|assumption|reflexivity].
  rewrite is_bytes_app, Hb. reflexivity.
Qed.

Lemma To16_idem (ip : IP) : To16 (To16 ip) = To16 ip.
Proof.
  destruct (To16_cases ip) as [[H E]|[[H E]|(_ & _ & E)]]; rewrite E.
  - unfold To16. rewrite length_app, H. reflexivity.
  - unfold To16, IPv4len, IPv6len. rewrite H. reflexivity.
  - reflexivity.
Qed.

(** The 16-byte form of an address, as the big-endian form of its
    value. *)
Lemma To16_bytesOf (ip : IP) :
  is_bytes ip = true -> To16 ip <> [] ->
  To16 ip = bytesOf 16 (SetBytes (To16 ip)).
Proof.
  intros Hb Hn. apply bytes_canonical;
    [now apply To16_is_bytes|now apply To16_length].
Qed.

Lemma reparse_bytesOf (v : Z) : reparse (bytesOf 16 v) = bytesOf 16 v.
Proof.
  unfold reparse, To16, IPv4len, IPv6len.
  rewrite bytesOf_length. reflexivity.
Qed.

Lemma bytesOf16_not_nil (v : Z) : isNil (bytesOf 16 v) = false.
Proof.
  pose proof (bytesOf_length 16 v) as H.
  destruct (bytesOf 16 v); [discriminate H|reflexivity].
Qed.

Lemma Equal_bytesOf (n : nat) (a b : Z) :
  Equal (bytesOf n a) (bytesOf n b) = true <->
  a mod 256 ^ Z.of_nat n = b mod 256 ^ Z.of_nat n.
Proof.
  unfold Equal. rewrite !bytesOf_length, Nat.eqb_refl.
  rewrite bytesEqual_eq. apply bytesOf_inj.
Qed.

Lemma addrSeq_S (s : Z) (n : nat) :
  addrSeq s (S n) = bytesOf 16 s :: addrSeq (s + 1) n.
Proof.
  unfold addrSeq. cbn [seq map]. rewrite Z.add_0_r. f_equal.
  rewrite <- seq_shift, map_map. apply map_ext. intros k.
  f_equal. lia.
Qed.


(** The loop started [d] addresses below [stop] appends these [d]
    addresses, given more than [d] units of fuel. *)
Lemma RangeHosts_loop_run (d : nat) :
  forall (fuel : nat) (s : Z) (acc : list IP),
    (d < fuel)%nat -> Z.of_nat d < 256 ^ 16 ->
    RangeHosts_loop fuel (bytesOf 16 s) (bytesOf 16 (s + Z.of_nat d)) acc
    = Some (acc ++ addrSeq s d).
Proof.
  induction d as [|d IH]; intros fuel s acc Hf Hd;
    (destruct fuel as [|fuel]; [lia|]); cbn [RangeHosts_loop].
  - replace (Equal (bytesOf 16 s) (bytesOf 16 (s + Z.of_nat 0))) with true
      by (symmetry; apply Equal_bytesOf; f_equal; lia).
    unfold addrSeq. simpl. now rewrite app_nil_r.
  - destruct (Equal (bytesOf 16 s) (bytesOf 16 (s + Z.of_nat (S d))))
      eqn:E.
    + exfalso. apply Equal_bytesOf in E.
      change (Z.of_nat 16) with 16 in E.
      replace (s + Z.of_nat (S d)) with (Z.of_nat (S d) + s) in E by lia.
      rewrite <- Zplus_mod_idemp_r in E.
      set (r := s mod 256 ^ 16) in *.
      pose proof (Z.mod_pos_bound s (256 ^ 16) ltac:(lia)) as Hr.
      fold r in Hr.
      destruct (Z_lt_ge_dec (Z.of_nat (S d) + r) (256 ^ 16)) as [L|G].
      * rewrite Z.mod_small in E; lia.
      * assert (M : (Z.of_nat (S d) + r) mod 256 ^ 16
                    = Z.of_nat (S d) + r - 256 ^ 16).
        { symmetry. apply Z.mod_unique with 1; lia. }
        lia.
    + rewrite reparse_bytesOf, bytesOf16_not_nil, addrInc_bytesOf.
      replace (s + Z.of_nat (S d)) with (s + 1 + Z.of_nat d) by lia.
      rewrite IH by lia. rewrite addrSeq_S, <- app_assoc. reflexivity.
Qed.

(** [RangeHosts] gives no address when an endpoint is [nil], when an
    endpoint has no 16-byte form and when [end] is not above [start]. *)
Lemma RangeHosts_empty (fuel : nat) (start end_ : IP) :
  is_bytes start = true -> is_bytes end_ = true ->
  start = [] \/ end_ = [] \/ To16 start = [] \/ To16 end_ = []
  \/ SetBytes (To16 end_) <= SetBytes (To16 start) ->
  RangeHosts fuel start end_ = Returns [].
Proof.
  intros Hs He H. unfold RangeHosts.
  destruct (isNil start) eqn:Ns; [reflexivity|].
  destruct (isNil end_) eqn:Ne; [reflexivity|]. cbn [orb].
  destruct (isNil (To16 start)) eqn:Ns16; [reflexivity|].
  destruct (isNil (To16 end_)) eqn:Ne16; [reflexivity|]. cbn [orb].
  destruct H as [->|[->|[H|[H|H]]]]; try discriminate;
    try (rewrite H in *; discriminate).
  rewrite Compare_SetBytes; try now apply To16_is_bytes.
  - destruct (_ <? _) eqn:E1; [reflexivity|].
    destruct (SetBytes (To16 start) <? _) eqn:E2; [|reflexivity].
    apply Z.ltb_lt in E2. lia.
  - rewrite !To16_length; [reflexivity| |];
      intros C; rewrite C in *; discriminate.
Qed.

(** [RangeHosts] from [start] up to a higher [end] gives every address
    from [start] to [end], in order and both included, in 16-byte form,
    unless the range is the whole address space. *)
Lemma RangeHosts_inclusive (fuel : nat) (start end_ : IP) :
  is_bytes start = true -> is_bytes end_ = true ->
  To16 start <> [] -> To16 end_ <> [] ->
  let s := SetBytes (To16 start) in
  let e := SetBytes (To16 end_) in
  s < e -> e - s + 1 < 256 ^ 16 ->
  (Z.to_nat (e - s + 1) < fuel)%nat ->
  RangeHosts fuel start end_ = Returns (addrSeq s (Z.to_nat (e - s + 1))).
Proof.
  intros Hs He Ns Ne s e Hlt Hsz Hf. unfold RangeHosts.
  assert (isNil start = false) as ->.
  { destruct start; [|reflexivity]. now contradiction Ns. }
  assert (isNil end_ = false) as ->.
  { destruct end_; [|reflexivity]. now contradiction Ne. }
  assert (isNil (To16 start) = false) as ->
      by (destruct (To16 start); [congruence|reflexivity]).
  assert (isNil (To16 end_) = false) as ->
      by (destruct (To16 end_); [congruence|reflexivity]).
  cbn [orb].
  rewrite Compare_SetBytes;
    [|now apply To16_is_bytes|now apply To16_is_bytes
     |now rewrite !To16_length].
  fold s e.
  replace (e <? s) with false by (symmetry; apply Z.ltb_ge; lia).
  replace (s <? e) with true by (symmetry; apply Z.ltb_lt; lia).
  cbn [Z.leb Z.compare].
  unfold reparse.
  rewrite (To16_bytesOf start Hs Ns), (To16_bytesOf end_ He Ne).
  fold s e. rewrite addrInc_bytesOf.
  replace (e + 1) with (s + Z.of_nat (Z.to_nat (e - s + 1))) by lia.
  rewrite RangeHosts_loop_run by lia. reflexivity.
Qed.

(** C6.  On the two ends of the address space, [::] and
    [ffff:ffff:ffff:ffff:ffff:ffff:ffff:ffff], [end] is above [start], yet
    [RangeHosts] gives no address: [stop], the address after [end], wraps
    around to [start] and the loop ends before its first turn. *)
Theorem RangeHosts_whole_space_empty :
  let start := repeat 0 16 in
  let end_ := repeat 255 16 in
  SetBytes (To16 start) < SetBytes (To16 end_)
  /\ 0 < Compare (To16 end_) (To16 start)
  /\ addrInc (reparse end_) = reparse start
  /\ forall fuel : nat, RangeHosts (S fuel) start end_ = Returns [].
Proof.
  repeat split; try reflexivity.
Qed.

End RangeFacts.

(** ** [CIDRSubset] *)

Section SubsetFacts.

Lemma walkDown_run (cidr : IPNet) (n : nat) :
  forall c : Z,
  exists b : nat,
    (b <= n)%nat
    /\ walkDown n cidr (bytesOf 16 c) = bytesOf 16 (c - Z.of_nat b)
    /\ (forall j : nat, (1 <= j <= b)%nat ->
                        Contains cidr (bytesOf 16 (c - Z.of_nat j)) = true)
    /\ (b = n
        \/ Contains cidr (bytesOf 16 (c - Z.of_nat b - 1)) = false).
Proof.
  induction n as [|n IH]; intros c.
  - exists O. repeat split;
      [lia|cbn [walkDown walkUp]; f_equal; lia|intros; lia|now left].
  - cbn [walkDown]. rewrite addrDec_bytesOf.
    destruct (Contains cidr (bytesOf 16 (c - 1))) eqn:E; cbn [negb].
    + destruct (IH (c - 1)) as (b & Hb & Hw & Hin & Hmax).
      exists (S b). repeat split.
      * lia.
      * rewrite Hw. f_equal. lia.
      * intros j Hj. destruct (Nat.eq_dec j 1%nat) as [->|Hj1]; [exact E|].
        replace (c - Z.of_nat j) with (c - 1 - Z.of_nat (j - 1)) by lia.
        apply Hin. lia.
      * destruct Hmax as [->|Hmax]; [now left|right].
        replace (c - Z.of_nat (S b) - 1) with (c - 1 - Z.of_nat b - 1)
          by lia. exact Hmax.
    + exists O. repeat split.
      * lia.
      * rewrite addrInc_bytesOf. f_equal. lia.
      * lia.
      * right. rewrite <- E. f_equal. f_equal. lia.
Qed.

Lemma walkUp_run (cidr : IPNet) (n : nat) :
  forall c : Z,
  exists f : nat,
    (f <= n)%nat
    /\ walkUp n cidr (bytesOf 16 c) = bytesOf 16 (c + Z.of_nat f)
    /\ (forall j : nat, (1 <= j <= f)%nat ->
                        Contains cidr (bytesOf 16 (c + Z.of_nat j)) = true)
    /\ (f = n
        \/ Contains cidr (bytesOf 16 (c + Z.of_nat f + 1)) = false).
Proof.
  induction n as [|n IH]; intros c.
  - exists O. repeat split;
      [lia|cbn [walkDown walkUp]; f_equal; lia|intros; lia|now left].
  - cbn [walkUp]. rewrite addrInc_bytesOf.
    destruct (Contains cidr (bytesOf 16 (c + 1))) eqn:E; cbn [negb].
    + destruct (IH (c + 1)) as (f & Hf & Hw & Hin & Hmax).
      exists (S f). repeat split.
      * lia.
      * rewrite Hw. f_equal. lia.
      * intros j Hj. destruct (Nat.eq_dec j 1%nat) as [->|Hj1]; [exact E|].
        replace (c + Z.of_nat j) with (c + 1 + Z.of_nat (j - 1)) by lia.
        apply Hin. lia.
      * destruct Hmax as [->|Hmax]; [now left|right].
        replace (c + Z.of_nat (S f) + 1) with (c + 1 + Z.of_nat f + 1)
          by lia. exact Hmax.
    + exists O. repeat split.
      * lia.
      * rewrite addrDec_bytesOf. f_equal. lia.
      * lia.
      * right. rewrite <- E. f_equal. f_equal. lia.
Qed.

Lemma quot2_bound (num : Z) :
  num < 2 ^ 63 -> Z.of_nat (Z.to_nat (num ÷ 2)) <= 2 ^ 62.
Proof.
  intros H. destruct (Z_lt_le_dec num 0) as [N|N].
  - assert (num ÷ 2 <= 0); [|lia].
    rewrite <- (Z.opp_involutive num), Z.quot_opp_l by lia.
    pose proof (Z.quot_pos (- num) 2 ltac:(lia) ltac:(lia)). lia.
  - rewrite Z.quot_div_nonneg by lia.
    rewrite Z2Nat.id by (apply Z.div_pos; lia).
    apply Z.div_le_upper_bound; lia.
Qed.

(** The result of [CIDRSubset] for a center inside the block: [b] steps
    down and [f] steps up were taken. *)
Lemma CIDRSubset_walk (cidr : IPNet) (c : Z) (b f : nat) (fuel : nat) :
  Z.of_nat b + Z.of_nat f < 2 ^ 64 ->
  let s := (c - Z.of_nat b) mod 2 ^ 128 in
  let e := (c + Z.of_nat f) mod 2 ^ 128 in
  let n := Z.to_nat (e - s + 1) in
  (n <= b + f + 1)%nat
  /\ (forall k : nat, (k < n)%nat ->
        bytesOf 16 (s + Z.of_nat k)
        = bytesOf 16 (c - Z.of_nat b + Z.of_nat k))
  /\ (b = O -> f = O -> n = 1%nat)
  /\ ((n < fuel)%nat ->
      (if Equal (bytesOf 16 (c - Z.of_nat b)) (bytesOf 16 (c + Z.of_nat f))
       then Returns [bytesOf 16 (c - Z.of_nat b)]
       else RangeHosts fuel (bytesOf 16 (c - Z.of_nat b))
                       (bytesOf 16 (c + Z.of_nat f)))
      = Returns (addrSeq s n)).
Proof.
  intros Hbf s e n.
  change (2 ^ 128) with (256 ^ Z.of_nat 16) in s, e.
  set (M := 256 ^ Z.of_nat 16) in *.
  assert (HM : M = 2 ^ 128) by reflexivity.
  assert (HM' : 2 ^ 64 < M) by (rewrite HM; reflexivity).
  pose proof (Z.mod_pos_bound (c - Z.of_nat b) M ltac:(lia)) as Hs.
  pose proof (Z.mod_pos_bound (c + Z.of_nat f) M ltac:(lia)) as He.
  fold s in Hs. fold e in He.
  assert (D : (e - s) mod M = Z.of_nat b + Z.of_nat f).
  { unfold e, s. rewrite <- Zminus_mod.
    replace (c + Z.of_nat f - (c - Z.of_nat b))
      with (Z.of_nat b + Z.of_nat f) by lia.
    apply Z.mod_small. lia. }
  assert (C : e - s = Z.of_nat b + Z.of_nat f \/ e - s < 0).
  { destruct (Z_lt_le_dec (e - s) 0) as [N|N]; [now right|left].
    rewrite Z.mod_small in D; lia. }
  assert (S16 : forall v, SetBytes (To16 (bytesOf 16 v)) = v mod M).
  { intros v. fold (reparse (bytesOf 16 v)).
    rewrite reparse_bytesOf. apply SetBytes_bytesOf. }
  assert (N16 : forall v, To16 (bytesOf 16 v) <> []).
  { intros v. fold (reparse (bytesOf 16 v)). rewrite reparse_bytesOf.
    pose proof (bytesOf16_not_nil v). now destruct (bytesOf 16 v). }
  split; [|split; [|split]].
  - unfold n. lia.
  - intros k Hk. apply bytesOf_inj. fold M. unfold s.
    now rewrite Zplus_mod_idemp_l.
  - intros -> ->. unfold n.
    destruct C as [C|C]; [rewrite C; reflexivity|].
    exfalso.
    assert ((e - s) mod M = e - s + M)
      by (symmetry; apply Z.mod_unique with (-1); lia).
    lia.
  - intros Hf.
    destruct (Equal _ _) eqn:E.
    + apply Equal_bytesOf in E. fold M s e in E.
      unfold n. rewrite <- E.
      replace (Z.to_nat (s - s + 1)) with 1%nat by lia.
      unfold addrSeq. cbn [seq map]. do 2 f_equal.
      apply bytesOf_inj. fold M. unfold s.
      rewrite Z.add_0_r. now rewrite Z.mod_mod by lia.
    + assert (Ese : e <> s).
      { intros Q. apply not_true_iff_false in E. apply E.
        apply Equal_bytesOf. fold M s e. congruence. }
      destruct C as [C|C].
      * rewrite RangeHosts_inclusive; rewrite ?S16; fold s e;
          try apply bytesOf_is_bytes; try apply N16; try lia.
        reflexivity.
      * rewrite RangeHosts_empty; try apply bytesOf_is_bytes.
        -- unfold n. replace (Z.to_nat (e - s + 1)) with O by lia.
           reflexivity.
        -- do 4 right. rewrite !S16. fold s e. lia.
Qed.




End SubsetFacts.

(** ** [RequestWebPage] *)

Section RequestFacts.
Import GoHttp.

Variable url_Parse_err : string -> option error.
Variable basicAuth : string -> string -> string.
Variable Client : Type.
Variable client_Do : Client -> Request -> Client * (Response + error).

Local Abbreviation build := (buildRequest url_Parse_err basicAuth).
Local Abbreviation request := (RequestWebPage url_Parse_err basicAuth Client client_Do).

Lemma nonEmpty_true (s : string) : nonEmpty s = true <-> s <> ""%string.
Proof.
  unfold nonEmpty. rewrite negb_true_iff. split.
  - intros H ->. discriminate H.
  - intros H. now apply String.eqb_neq.
Qed.

Lemma fold_mapHeader_Method (hvals : list (string * string)) (req : Request) :
  Method (fold_left
            (fun req kv => mapHeader (fun h => Header_Set h kv.1 kv.2) req)
            hvals req) = Method req.
Proof.
  revert req. induction hvals as [|kv hvals IH]; intros req;
    [reflexivity|]. cbn [fold_left]. now rewrite IH.
Qed.

Lemma fold_mapHeader_lookup (hvals : list (string * string)) (req : Request)
      (key : string) :
  (forall kv, In kv hvals -> CanonicalMIMEHeaderKey kv.1 <> key) ->
  Header (fold_left
            (fun req kv => mapHeader (fun h => Header_Set h kv.1 kv.2) req)
            hvals req) !! key = Header req !! key.
Proof.
  revert req. induction hvals as [|kv hvals IH]; intros req H;
    [reflexivity|]. cbn [fold_left].
  rewrite IH by (intros kv' Hkv'; apply H; now right).
  unfold mapHeader, Header_Set. cbn [Header].
  apply lookup_insert_ne. apply H. now left.
Qed.

Lemma buildRequest_ok (urlstring : string) (body : option Reader)
      (hvals : list (string * string)) (uid secret : string) :
  match url_Parse_err urlstring with
  | Some err => build urlstring body hvals uid secret = inr err
  | None => exists req, build urlstring body hvals uid secret = inl req
  end.
Proof.
  unfold buildRequest, NewRequest.
  destruct (url_Parse_err urlstring); [reflexivity|]. eexists. reflexivity.
Qed.

(** C4.  The request is a POST exactly when a body is supplied and a GET
    otherwise; it carries the Basic [Authorization] header of [uid] and
    [secret] exactly when both are non-empty (the caller's headers not
    naming [Authorization] themselves); the call fails with the error of
    building the request, with the error of sending it, and with the
    status text when the status code is outside [200, 300); with a status
    code inside [200, 300) it returns the body that was read and no
    error. *)
Theorem RequestWebPage_contract (c : Client) (urlstring : string)
        (body : option Reader) (hvals : list (string * string))
        (uid secret : string) :
  (forall err : error,
      url_Parse_err urlstring = Some err ->
      request c urlstring body hvals uid secret = (c, (""%string, Some err)))
  /\ (url_Parse_err urlstring = None ->
      exists req : Request,
        build urlstring body hvals uid secret = inl req
        /\ (Method req = "POST"%string <-> body <> None)
        /\ (Method req = "GET"%string <-> body = None)
        /\ ((forall kv, In kv hvals ->
                CanonicalMIMEHeaderKey kv.1 <> "Authorization"%string) ->
            (uid <> ""%string /\ secret <> ""%string ->
             Header req !! "Authorization"%string
             = Some (basicAuth uid secret))
            /\ (~ (uid <> ""%string /\ secret <> ""%string) ->
                Header req !! "Authorization"%string = None))
        /\ (forall (c' : Client) (err : error),
               client_Do c req = (c', inr err) ->
               request c urlstring body hvals uid secret
               = (c', (""%string, Some err)))
        /\ (forall (c' : Client) (resp : Response),
               client_Do c req = (c', inl resp) ->
               (StatusCode resp < 200 \/ 300 <= StatusCode resp ->
                request c urlstring body hvals uid secret
                = (c', (""%string, Some (Status resp))))
               /\ (200 <= StatusCode resp < 300 ->
                   request c urlstring body hvals uid secret
                   = (c', (Reader_data (RespBody resp), None))))).
Proof.
  split.
  - intros err H. unfold RequestWebPage, buildRequest, NewRequest.
    now rewrite H.
  - intros Hurl.
    pose proof (buildRequest_ok urlstring body hvals uid secret) as Hb.
    rewrite Hurl in Hb. destruct Hb as [req Hreq]. exists req.
    split; [exact Hreq|].
    pose proof Hreq as Hreq'.
    unfold buildRequest, NewRequest in Hreq'. rewrite Hurl in Hreq'.
    injection Hreq' as Hreq'.
    assert (HM : Method req
                 = (if body is Some _ then "POST" else "GET")%string).
    { rewrite <- Hreq', fold_mapHeader_Method.
      destruct (nonEmpty uid && nonEmpty secret); reflexivity. }
    split; [|split; [|split; [|split]]].
    + rewrite HM. destruct body; split; congruence.
    + rewrite HM. destruct body; split; congruence.
    + intros Hh.
      assert (HA : Header req !! "Authorization"%string
                   = if nonEmpty uid && nonEmpty secret
                     then Some (basicAuth uid secret) else None).
      { rewrite <- Hreq', fold_mapHeader_lookup by exact Hh.
        unfold mapHeader, Header_Set, SetBasicAuth, mapHeader, Header_Set.
        cbn [Header].
        rewrite !lookup_insert_ne by (vm_compute; discriminate).
        destruct (nonEmpty uid && nonEmpty secret); cbn [Header].
        - apply lookup_insert_eq.
        - apply lookup_empty. }
      rewrite HA. split.
      * intros [Hu Hs]. apply nonEmpty_true in Hu, Hs.
        now rewrite Hu, Hs.
      * intros N. destruct (nonEmpty uid) eqn:Eu;
          destruct (nonEmpty secret) eqn:Es; try reflexivity.
        exfalso. apply N. now split; apply nonEmpty_true.
    + intros c' err HD. unfold RequestWebPage. now rewrite Hreq, HD.
    + intros c' resp HD. unfold RequestWebPage. rewrite Hreq, HD. split.
      * intros Hs.
        replace ((StatusCode resp <? 200) || (300 <=? StatusCode resp))
          with true; [reflexivity|].
        symmetry. apply orb_true_iff. rewrite Z.ltb_lt, Z.leb_le. exact Hs.
      * intros Hs.
        replace ((StatusCode resp <? 200) || (300 <=? StatusCode resp))
          with false; [reflexivity|].
        symmetry. apply orb_false_iff. rewrite Z.ltb_ge, Z.leb_gt. lia.
Qed.

(** C10.  With a status code in [200, 300) the call returns no error
    even when reading the body stopped on an error: that error is
    dropped and the bytes read until then are the result. *)
Theorem RequestWebPage_read_error_dropped (c c' : Client)
        (urlstring : string) (body : option Reader)
        (hvals : list (string * string)) (uid secret : string)
        (req : Request) (resp : Response) (data : string) (err : error) :
  build urlstring body hvals uid secret = inl req ->
  client_Do c req = (c', inl resp) ->
  200 <= StatusCode resp < 300 ->
  ReadAll (RespBody resp) = (data, Some err) ->
  request c urlstring body hvals uid secret = (c', (data, None)).
Proof.
  intros Hreq HD Hs HR. unfold RequestWebPage. rewrite Hreq, HD.
  replace ((StatusCode resp <? 200) || (300 <=? StatusCode resp))
    with false
    by (symmetry; apply orb_false_iff; rewrite Z.ltb_ge, Z.leb_gt; lia).
  now rewrite HR.
Qed.

End RequestFacts.

(** A server that answers 200 and whose body breaks off after
    ["partial"]. *)
Lemma RequestWebPage_contract_witness :
  exists req : GoHttp.Request,
    buildRequest (fun _ => None) (fun u p => "Basic " +:+ u +:+ ":" +:+ p)
                 "http://example.com" None [] "user" "secret" = inl req
    /\ GoHttp.Method req = "GET"%string
    /\ GoHttp.Header req !! "Authorization"%string
       = Some "Basic user:secret"%string.
Proof.
  destruct (proj2 (RequestWebPage_contract
                     (fun _ => None) (fun u p => "Basic " +:+ u +:+ ":" +:+ p)
                     unit
                     (fun c _ =>
                        (c, inl (GoHttp.mkResponse
                                   "200 OK" 200
                                   (GoHttp.mkReader "partial"
                                      (Some "unexpected EOF"%string)))))
                     tt "http://example.com" None [] "user" "secret")
                  eq_refl)
    as (req & Hreq & _ & HG & HA & _).
  exists req. split; [exact Hreq|]. split; [now apply HG|].
  apply HA; [intros kv []|split; discriminate].
Defined.

Lemma RequestWebPage_read_error_dropped_witness :
  RequestWebPage (fun _ => None) (fun u p => "Basic " +:+ u +:+ ":" +:+ p)
                 unit
                 (fun c _ =>
                    (c, inl (GoHttp.mkResponse
                               "200 OK" 200
                               (GoHttp.mkReader "partial"
                                  (Some "unexpected EOF"%string)))))
                 tt "http://example.com" None [] "" ""
  = (tt, ("partial"%string, None)).
Proof.
  eapply (RequestWebPage_read_error_dropped
            (fun _ => None) (fun u p => "Basic " +:+ u +:+ ":" +:+ p) unit
            (fun c _ =>
               (c, inl (GoHttp.mkResponse
                          "200 OK" 200
                          (GoHttp.mkReader "partial"
                             (Some "unexpected EOF"%string)))))
            tt tt "http://example.com" None [] "" "").
  - reflexivity.
  - reflexivity.
  - simpl. lia.
  - reflexivity.
Defined.

(** ** [crawl] *)

Section CrawlFacts.
Import GoHttp.

Variable UniqueAppend : list string -> string -> list string.
Variable SendStringGet_err : string -> option error.

Local Abbreviation crawl' := (crawl UniqueAppend SendStringGet_err).
Local Abbreviation loop := (crawlLoop UniqueAppend).
Local Abbreviation after := (stateAfter UniqueAppend).

Lemma crawlLoop_break (pre post : list selected) (ev : selected)
      (st : loopState) :
  forallb goesOn pre = true -> goesOn ev = false ->
  exists st' : loopState,
    loop st (pre ++ ev :: post) = Some st'
    /\ results st' = fold_left UniqueAppend (namesOf pre) (results st).
Proof.
  revert st. induction pre as [|x pre IH]; intros st Hpre Hev.
  - exists st. split; [|reflexivity]. cbn [app crawlLoop].
    destruct ev; try discriminate Hev; reflexivity.
  - cbn [forallb] in Hpre. apply andb_true_iff in Hpre as [Hx Hpre].
    cbn [app crawlLoop].
    destruct x; try discriminate Hx; cbn [turn].
    + destruct (decide (l ∈ linksFilter st)).
      * destruct (IH st Hpre Hev) as (st' & H1 & H2). now exists st'.
      * destruct (IH (mkLoopState (results st) ({[l]} ∪ linksFilter st)
                                  (enqueued st ++ [l]) (cancelling st))
                     Hpre Hev) as (st' & H1 & H2). now exists st'.
    + destruct (IH (mkLoopState (UniqueAppend (results st) n)
                                (linksFilter st) (enqueued st)
                                (cancelling st)) Hpre Hev)
        as (st' & H1 & H2). now exists st'.
    + destruct (IH (mkLoopState (results st) (linksFilter st)
                                (enqueued st) true) Hpre Hev)
        as (st' & H1 & H2). now exists st'.
Qed.

Lemma crawlLoop_waiting (trace : list selected) (st : loopState) :
  forallb goesOn trace = true -> loop st trace = None.
Proof.
  revert st. induction trace as [|x trace IH]; intros st H;
    [reflexivity|].
  cbn [forallb] in H. apply andb_true_iff in H as [Hx H].
  cbn [crawlLoop].
  destruct x; try discriminate Hx; cbn [turn];
    try destruct (decide _); now apply IH.
Qed.

(** The loop ends at the first turn that breaks, with the variables as
    the turns before have left them. *)
Lemma crawlLoop_stateAfter (pre post : list selected) (ev : selected)
      (st : loopState) :
  forallb goesOn pre = true -> goesOn ev = false ->
  loop st (pre ++ ev :: post) = Some (after st pre).
Proof.
  revert st. induction pre as [|x pre IH]; intros st Hpre Hev.
  - cbn [app crawlLoop stateAfter].
    destruct ev; try discriminate Hev; reflexivity.
  - cbn [forallb] in Hpre. apply andb_true_iff in Hpre as [Hx Hpre].
    cbn [app crawlLoop stateAfter].
    destruct x; try discriminate Hx; cbn [turn];
      try destruct (decide _); now apply IH.
Qed.

Lemma stateAfter_results (pre : list selected) (st : loopState) :
  forallb goesOn pre = true ->
  results (after st pre) = fold_left UniqueAppend (namesOf pre) (results st).
Proof.
  revert st. induction pre as [|x pre IH]; intros st Hpre; [reflexivity|].
  cbn [forallb] in Hpre. apply andb_true_iff in Hpre as [Hx Hpre].
  cbn [stateAfter].
  destruct x; try discriminate Hx; cbn [turn];
    try destruct (decide _); now rewrite IH.
Qed.

(** [q.Cancel()] has been launched exactly when the timer has fired. *)
Lemma stateAfter_cancelling (pre : list selected) (st : loopState) :
  forallb goesOn pre = true ->
  cancelling (after st pre) = true
  <-> cancelling st = true \/ In TimerFired pre.
Proof.
  revert st. induction pre as [|x pre IH]; intros st Hpre.
  - cbn [stateAfter In]. tauto.
  - cbn [forallb] in Hpre. apply andb_true_iff in Hpre as [Hx Hpre].
    cbn [stateAfter In].
    destruct x; try discriminate Hx; cbn [turn];
      try destruct (decide _); rewrite IH by exact Hpre;
      cbn [cancelling]; intuition congruence.
Qed.

(** The first turn of a sequence that ends the loop. *)
Lemma first_break (rest : list selected) :
  In QueueDone rest ->
  exists (mid post : list selected) (ev : selected),
    rest = mid ++ ev :: post /\ forallb goesOn mid = true
    /\ (ev = QueueDone \/ ev = ServiceQuit).
Proof.
  induction rest as [|x rest IH]; intros H; [destruct H|].
  destruct (goesOn x) eqn:G.
  - destruct H as [->|H]; [discriminate G|].
    destruct (IH H) as (mid & post & ev & -> & Hm & He).
    exists (x :: mid), post, ev. cbn [forallb]. rewrite G, Hm. auto.
  - exists [], rest, x. split; [reflexivity|]. split; [reflexivity|].
    destruct x; try discriminate G; auto.
Qed.

(** C3.  When the seed request cannot be issued, [crawl] returns no name
    and an error that names the URL and the cause.  Otherwise it returns
    at the first closing of [q.Done()] or of [service.Quit()] that the
    [select] receives, with the names received until then and a [nil]
    error, whichever of the two it was; [q.Cancel()] has then been
    launched exactly when the timer had fired.  When the timer fires the
    loop launches [q.Cancel()], and with the queue that [fetchbot]
    documents ([cancelClosesQueue]) the closing of [q.Done()] follows:
    [crawl] returns then as it does on the two other causes, with the
    names received until that closing.  While none of this has happened
    the loop is waiting; and [crawl] returns an error in no other case
    than the first. *)
Theorem crawl_results (base domain sub year : string) :
  let u := base +:+ "/" +:+ year +:+ "/" +:+ sub in
  let st0 := mkLoopState [] ∅ [u] false in
  (forall (err : error) (trace : list selected),
      SendStringGet_err u = Some err ->
      crawl' base domain sub year trace
      = Some ([], Some ("Crawler error: GET " +:+ u +:+ " - " +:+ err)))
  /\ (SendStringGet_err u = None ->
      (forall (pre post : list selected) (ev : selected),
          forallb goesOn pre = true ->
          ev = QueueDone \/ ev = ServiceQuit ->
          crawl' base domain sub year (pre ++ ev :: post)
          = Some (fold_left UniqueAppend (namesOf pre) [], None)
          /\ exists st : loopState,
              loop st0 (pre ++ ev :: post) = Some st
              /\ (cancelling st = true <-> In TimerFired pre))
      /\ (forall pre mid post : list selected,
             forallb goesOn pre = true -> forallb goesOn mid = true ->
             crawl' base domain sub year
                    (pre ++ TimerFired :: mid ++ QueueDone :: post)
             = Some (fold_left UniqueAppend (namesOf (pre ++ mid)) [],
                     None))
      /\ (forall pre rest : list selected,
             forallb goesOn pre = true ->
             cancelClosesQueue UniqueAppend st0 (pre ++ TimerFired :: rest) ->
             exists (mid post : list selected) (ev : selected),
               rest = mid ++ ev :: post /\ forallb goesOn mid = true
               /\ (ev = QueueDone \/ ev = ServiceQuit)
               /\ crawl' base domain sub year (pre ++ TimerFired :: rest)
                  = Some (fold_left UniqueAppend (namesOf (pre ++ mid)) [],
                          None))
      /\ (forall trace : list selected,
             forallb goesOn trace = true ->
             crawl' base domain sub year trace = None))
  /\ (forall (trace : list selected) (r : list string) (e : error),
         crawl' base domain sub year trace = Some (r, Some e) ->
         SendStringGet_err u <> None /\ r = []).
Proof.
  intros u st0.
  assert (B : SendStringGet_err u = None ->
              forall pre post ev,
                forallb goesOn pre = true -> goesOn ev = false ->
                crawl' base domain sub year (pre ++ ev :: post)
                = Some (fold_left UniqueAppend (namesOf pre) [], None)).
  { intros Hu pre post ev Hpre Hev. unfold crawl. fold u. rewrite Hu.
    rewrite crawlLoop_stateAfter, stateAfter_results by assumption.
    reflexivity. }
  assert (T : forall pre mid : list selected,
             namesOf (pre ++ TimerFired :: mid) = namesOf (pre ++ mid)).
  { intros pre mid. unfold namesOf. rewrite !omap_app. reflexivity. }
  split; [|split].
  - intros err trace Hu. unfold crawl. fold u. now rewrite Hu.
  - intros Hu. split; [|split; [|split]].
    + intros pre post ev Hpre Hev.
      assert (G : goesOn ev = false) by (destruct Hev; subst; reflexivity).
      split; [now apply B|].
      exists (stateAfter UniqueAppend st0 pre).
      split; [now apply crawlLoop_stateAfter|].
      rewrite stateAfter_cancelling by exact Hpre.
      cbn [st0 cancelling]. intuition congruence.
    + intros pre mid post Hpre Hmid.
      replace (pre ++ TimerFired :: mid ++ QueueDone :: post)
        with ((pre ++ TimerFired :: mid) ++ QueueDone :: post)
        by (now rewrite <- app_assoc).
      rewrite B; [|assumption| |reflexivity].
      * now rewrite T.
      * rewrite forallb_app. cbn [forallb goesOn]. now rewrite Hpre, Hmid.
    + intros pre rest Hpre Hq.
      assert (Hpre' : forallb goesOn (pre ++ [TimerFired]) = true)
        by (rewrite forallb_app, Hpre; reflexivity).
      assert (HD : In QueueDone rest).
      { apply (Hq (pre ++ [TimerFired]) rest);
          [now rewrite <- app_assoc|exact Hpre'|].
        apply stateAfter_cancelling; [exact Hpre'|].
        right. apply in_or_app. right. now left. }
      destruct (first_break rest HD) as (mid & post & ev & -> & Hm & He).
      exists mid, post, ev. repeat (split; [assumption|]).
      assert (G : goesOn ev = false) by (destruct He; subst; reflexivity).
      replace (pre ++ TimerFired :: mid ++ ev :: post)
        with ((pre ++ TimerFired :: mid) ++ ev :: post)
        by (now rewrite <- app_assoc).
      rewrite B; [|assumption| |exact G].
      * now rewrite T.
      * rewrite forallb_app. cbn [forallb goesOn]. now rewrite Hpre, Hm.
    + intros trace Htr. unfold crawl. fold u. rewrite Hu.
      now rewrite crawlLoop_waiting.
  - intros trace r e H. unfold crawl in H. fold u in H.
    destruct (SendStringGet_err u) as [err|].
    + injection H as <- _. split; [discriminate|reflexivity].
    + destruct (crawlLoop _ _ trace); discriminate H.
Qed.

End CrawlFacts.

Lemma crawl_results_witness :
  exists (mid post : list selected) (ev : selected),
    [RecvName "b.example.com"; QueueDone; RecvName "c.example.com"]%string
    = mid ++ ev :: post
    /\ forallb goesOn mid = true
    /\ (ev = QueueDone \/ ev = ServiceQuit)
    /\ crawl (fun results n => if bool_decide (n ∈ results) then results
                               else results ++ [n])
             (fun _ => None)
             "http://archive.example" "example.com" "index.html" "2019"
             ([RecvName "a.example.com"; RecvLink "http://a.example.com/";
               RecvName "a.example.com"]%string
                ++ TimerFired
                :: [RecvName "b.example.com"; QueueDone;
                    RecvName "c.example.com"]%string)
       = Some (fold_left (fun results n =>
                            if bool_decide (n ∈ results) then results
                            else results ++ [n])
                         (namesOf
                            ([RecvName "a.example.com";
                              RecvLink "http://a.example.com/";
                              RecvName "a.example.com"]%string ++ mid)) [],
               None).
Proof.
  apply (proj1 (proj2 (proj2 (proj1 (proj2 (crawl_results
                         (fun results n =>
                            if bool_decide (n ∈ results) then results
                            else results ++ [n])
                         (fun _ => None)
                         "http://archive.example" "example.com"
                         "index.html" "2019")) eq_refl))));
    [reflexivity|].
  intros pre rest E G _.
  do 6 (destruct pre as [|? pre];
        [cbn [app] in E; subst rest; simpl; auto 10
        |cbn [app] in E; injection E as <- E]).
  cbn in G. discriminate G.
Defined.

(** ** [NetHosts] *)

Section NetHostsFacts.

(** C2.  On a host route the enumeration holds one address and the slice
    expression [ips[1 : len(ips)-1]] is [ips[1:0]], which panics: the
    call does not return the empty sequence.  This is so for [/32] and
    for [/128]; on [/31] and [/127] the enumeration holds two addresses
    and the result is empty; on [/30] the two inner addresses are
    returned. *)
Theorem NetHosts_host_route_panics :
  let host4 := mkIPNet [192; 168; 1; 4] (CIDRMask 32 32) in
  let host6 :=
    mkIPNet [32; 1; 13; 184; 0; 0; 0; 0; 0; 0; 0; 0; 0; 0; 0; 1]
            (CIDRMask 128 128) in
  let pair4 := mkIPNet [192; 168; 1; 4] (CIDRMask 31 32) in
  let pair6 :=
    mkIPNet [32; 1; 13; 184; 0; 0; 0; 0; 0; 0; 0; 0; 0; 0; 0; 0]
            (CIDRMask 127 128) in
  let quad4 := mkIPNet [192; 168; 1; 4] (CIDRMask 30 32) in
  Size (IPNet_Mask host4) = (32, 32)
  /\ NetHosts_loop 2 host4 (Mask (IPNet_IP host4) (IPNet_Mask host4)) []
     = Some [IPv4 192 168 1 4]
  /\ slice [IPv4 192 168 1 4] 1 (1 - 1) = None
  /\ (forall fuel : nat, NetHosts (S (S fuel)) host4 = Panics)
  /\ (forall fuel : nat, NetHosts (S (S fuel)) host6 = Panics)
  /\ (forall fuel : nat, NetHosts (S (S (S fuel))) pair4 = Returns [])
  /\ (forall fuel : nat, NetHosts (S (S (S fuel))) pair6 = Returns [])
  /\ (forall fuel : nat,
         NetHosts (5 + fuel) quad4
         = Returns [IPv4 192 168 1 5; IPv4 192 168 1 6]).
Proof.
  repeat split; intros; vm_compute; reflexivity.
Qed.

Lemma Contains_default_route (ip : IP) :
  length ip = 4%nat ->
  Contains (mkIPNet [0; 0; 0; 0] [0; 0; 0; 0]) ip = true.
Proof.
  intros H. destruct ip as [|a [|b [|c [|d [|e r]]]]]; try discriminate H.
  unfold Contains. cbn. now rewrite !Z.land_0_r.
Qed.

Lemma addrInc_length (ip : IP) : length (addrInc ip) = length ip.
Proof.
  unfold addrInc. rewrite length_rev, <- (length_rev ip).
  induction (rev ip) as [|b r IH]; [reflexivity|]. cbn [addrInc_loop].
  destruct (0 <? (b + 1) mod 256); cbn [length]; now rewrite ?IH.
Qed.

(** On [0.0.0.0/0] the loop of [NetHosts] never ends: the address after
    [255.255.255.255] is [0.0.0.0], which is in the block again. *)
Lemma NetHosts_default_route_loops (fuel : nat) :
  NetHosts fuel (mkIPNet [0; 0; 0; 0] [0; 0; 0; 0]) = OutOfFuel.
Proof.
  unfold NetHosts.
  change (Mask (IPNet_IP (mkIPNet [0; 0; 0; 0] [0; 0; 0; 0]))
               (IPNet_Mask (mkIPNet [0; 0; 0; 0] [0; 0; 0; 0])))
    with [0; 0; 0; 0].
  assert (H : forall (ip : IP) (ips : list IP),
             length ip = 4%nat ->
             NetHosts_loop fuel (mkIPNet [0; 0; 0; 0] [0; 0; 0; 0]) ip ips
             = None).
  { induction fuel as [|fuel IH]; intros ip ips Hl; [reflexivity|].
    cbn [NetHosts_loop]. rewrite Contains_default_route by exact Hl.
    apply IH. now rewrite addrInc_length. }
  now rewrite H.
Qed.

(** The loop of [NetHosts] started at the value [s], when the [k] addresses
    from [s] on are in the block and the next one is not. *)
Lemma NetHosts_loop_run (cidr : IPNet) (n k : nat) :
  forall (fuel : nat) (s : Z) (acc : list IP),
    (forall j : nat, (j < k)%nat ->
                     Contains cidr (bytesOf n (s + Z.of_nat j)) = true) ->
    Contains cidr (bytesOf n (s + Z.of_nat k)) = false ->
    (k < fuel)%nat ->
    NetHosts_loop fuel cidr (bytesOf n s) acc
    = Some (acc ++ map (fun j => reparse (bytesOf n (s + Z.of_nat j)))
                       (seq 0 k)).
Proof.
  induction k as [|k IH]; intros fuel s acc Hin Hout Hf;
    (destruct fuel as [|fuel]; [lia|]); cbn [NetHosts_loop].
  - rewrite Z.add_0_r in Hout. rewrite Hout. cbn [seq map].
    now rewrite app_nil_r.
  - pose proof (Hin O ltac:(lia)) as H0. rewrite Z.add_0_r in H0.
    rewrite H0, addrInc_bytesOf.
    rewrite IH; [| | |lia].
    + rewrite <- app_assoc. cbn [seq map app]. rewrite Z.add_0_r.
      do 3 f_equal. rewrite <- seq_shift, map_map. apply map_ext.
      intros j. do 2 f_equal. lia.
    + intros j Hj. replace (s + 1 + Z.of_nat j) with (s + Z.of_nat (S j))
        by lia. apply Hin. lia.
    + replace (s + 1 + Z.of_nat k) with (s + Z.of_nat (S k)) by lia.
      exact Hout.
Qed.

Lemma slice_inner {A} (l : list A) :
  slice l 1 (Z.of_nat (length l) - 1)
  = if (2 <=? length l)%nat then Some (take (length l - 2) (drop 1 l))
    else None.
Proof.
  unfold slice. destruct (2 <=? length l)%nat eqn:E.
  - apply Nat.leb_le in E.
    replace ((0 <=? 1) && (1 <=? Z.of_nat (length l) - 1)
             && (Z.of_nat (length l) - 1 <=? Z.of_nat (length l)))
      with true
      by (symmetry; rewrite !andb_true_iff, !Z.leb_le; lia).
    do 2 f_equal. lia.
  - apply Nat.leb_gt in E.
    replace (1 <=? Z.of_nat (length l) - 1) with false
      by (symmetry; apply Z.leb_gt; lia).
    reflexivity.
Qed.

(** [NetHosts] on a block that the loop enumerates as the [k] addresses
    from [s] on: the inner [k - 2] addresses for [k >= 2], a panic
    otherwise. *)
Lemma NetHosts_enumerated (cidr : IPNet) (n k fuel : nat) (s : Z) :
  Mask (IPNet_IP cidr) (IPNet_Mask cidr) = bytesOf n s ->
  (forall j : nat, (j < k)%nat ->
                   Contains cidr (bytesOf n (s + Z.of_nat j)) = true) ->
  Contains cidr (bytesOf n (s + Z.of_nat k)) = false ->
  (k < fuel)%nat ->
  NetHosts fuel cidr
  = if (2 <=? k)%nat
    then Returns (map (fun j => reparse (bytesOf n (s + 1 + Z.of_nat j)))
                      (seq 0 (k - 2)))
    else Panics.
Proof.
  intros Hm Hin Hout Hf. unfold NetHosts.
  rewrite Hm, (NetHosts_loop_run cidr n k fuel s [] Hin Hout Hf).
  cbn [app]. rewrite slice_inner, length_map, length_seq.
  destruct (2 <=? k)%nat eqn:E; [|reflexivity].
  apply Nat.leb_le in E. f_equal.
  rewrite skipn_map, firstn_map.
  replace (take (k - 2) (drop 1 (seq 0 k))) with (seq 1 (k - 2)).
  - rewrite <- seq_shift, map_map. apply map_ext. intros j.
    do 2 f_equal. lia.
  - destruct k as [|[|k]]; try lia.
    replace (S (S k) - 2)%nat with k by lia.
    change (drop 1 (seq 0 (S (S k)))) with (seq 1 (S k)).
    rewrite seq_S, take_app_length' by (now rewrite length_seq).
    reflexivity.
Qed.

(** *** IPv4 blocks: the bytes under a mask, by value *)

Lemma land_255 (a : Z) : 0 <= a < 256 -> Z.land a 255 = a.
Proof.
  intros H. change 255 with (Z.ones 8).
  rewrite Z.land_ones by lia. apply Z.mod_small. exact H.
Qed.

(** The byte of a mask with [n < 8] leading ones keeps the [n] upper bits
    of a byte. *)
Lemma land_mask_byte (n a : Z) :
  0 <= n < 8 -> 0 <= a < 256 ->
  Z.land a (Z.land (Z.lnot (Z.shiftr 255 n)) 255)
  = a / 2 ^ (8 - n) * 2 ^ (8 - n).
Proof.
  intros Hn Ha.
  assert (T : forallb
                (fun n' =>
                   forallb
                     (fun a' =>
                        Z.land (Z.of_nat a')
                               (Z.land (Z.lnot (Z.shiftr 255 (Z.of_nat n')))
                                       255)
                        =? Z.of_nat a' / 2 ^ (8 - Z.of_nat n')
                           * 2 ^ (8 - Z.of_nat n'))
                     (seq 0 256))
                (seq 0 8) = true) by (vm_compute; reflexivity).
  rewrite forallb_forall in T.
  specialize (T (Z.to_nat n) ltac:(apply in_seq; lia)).
  rewrite forallb_forall in T.
  specialize (T (Z.to_nat a) ltac:(apply in_seq; lia)).
  rewrite !Z2Nat.id in T by lia. now apply Z.eqb_eq.
Qed.

Lemma maskBytes_zero (l : nat) : maskBytes l 0 = replicate l 0.
Proof.
  induction l as [|l IH]; [reflexivity|].
  cbn [maskBytes replicate]. change (8 <=? 0) with false. cbv iota.
  now rewrite IH.
Qed.

Lemma sameNetwork_zero_mask (l : nat) (a x : list Z) :
  sameNetwork a (replicate l 0) x = true.
Proof.
  revert a x. induction l as [|l IH]; intros [|a0 a] [|x0 x];
    try reflexivity.
  cbn [replicate sameNetwork]. now rewrite !Z.land_0_r, IH.
Qed.

Lemma pow256 (l : nat) : 256 ^ Z.of_nat l = 2 ^ (8 * Z.of_nat l).
Proof. change 256 with (2 ^ 8). now rewrite <- Z.pow_mul_r by lia. Qed.

(** Arithmetic of one more leading byte [a0] in front of the value [va] of
    [l] bytes, under a shift [h] within these [l] bytes. *)
Lemma div_cons_high (a0 va h w : Z) :
  0 <= h <= w -> 0 <= va < 2 ^ w ->
  (a0 * 2 ^ w + va) / 2 ^ h = a0 * 2 ^ (w - h) + va / 2 ^ h
  /\ 0 <= va / 2 ^ h < 2 ^ (w - h).
Proof.
  intros Hh Hva.
  assert (E : 2 ^ w = 2 ^ (w - h) * 2 ^ h)
    by (rewrite <- Z.pow_add_r by lia; f_equal; lia).
  assert (0 < 2 ^ h) by (apply Z.pow_pos_nonneg; lia).
  split.
  - rewrite E, Z.mul_assoc, Z.div_add_l by lia. reflexivity.
  - split; [apply Z.div_pos; lia|].
    apply Z.div_lt_upper_bound; [lia|]. rewrite Z.mul_comm, <- E. lia.
Qed.

(** Arithmetic of the leading byte [a0] under a shift that leaves only its
    upper bits. *)
Lemma div_cons_low (a0 va k w : Z) :
  0 <= k -> 0 <= w -> 0 <= va < 2 ^ w ->
  (a0 * 2 ^ w + va) / 2 ^ (w + k) = a0 / 2 ^ k.
Proof.
  intros Hk Hw Hva.
  assert (0 < 2 ^ w) by (apply Z.pow_pos_nonneg; lia).
  assert (0 < 2 ^ k) by (apply Z.pow_pos_nonneg; lia).
  rewrite Z.pow_add_r, <- Z.div_div by lia.
  rewrite Z.div_add_l by lia. rewrite (Z.div_small va) by lia.
  now rewrite Z.add_0_r.
Qed.

(** [Contains], byte by byte under a mask of [n] leading ones, compares
    the values above the host bits. *)
Lemma sameNetwork_maskBytes (l : nat) :
  forall (n : Z) (a x : list Z),
    length a = l -> length x = l ->
    is_bytes a = true -> is_bytes x = true ->
    0 <= n <= 8 * Z.of_nat l ->
    sameNetwork a (maskBytes l n) x = true
    <-> SetBytes a / 2 ^ (8 * Z.of_nat l - n)
        = SetBytes x / 2 ^ (8 * Z.of_nat l - n).
Proof.
  induction l as [|l IH]; intros n [|a0 a] [|x0 x] La Lx Ba Bx Hn;
    try discriminate La; try discriminate Lx.
  - split; reflexivity.
  - injection La as La. injection Lx as Lx.
    apply is_bytes_cons in Ba as [Ha0 Ba].
    apply is_bytes_cons in Bx as [Hx0 Bx].
    pose proof (SetBytes_range a Ba) as Ra.
    pose proof (SetBytes_range x Bx) as Rx.
    rewrite La, pow256 in Ra. rewrite Lx, pow256 in Rx.
    rewrite !SetBytes_cons, La, Lx, pow256.
    set (w := 8 * Z.of_nat l) in *.
    replace (8 * Z.of_nat (S l)) with (w + 8) by lia.
    cbn [maskBytes sameNetwork].
    destruct (8 <=? n) eqn:E.
    + apply Z.leb_le in E. cbn [sameNetwork].
      rewrite !land_255 by lia.
      rewrite andb_true_iff, Z.eqb_eq.
      rewrite (IH (n - 8) a x La Lx Ba Bx ltac:(lia)). fold w.
      replace (w + 8 - n) with (w - (n - 8)) by lia.
      remember (w - (n - 8)) as h eqn:Hh.
      destruct (div_cons_high a0 (SetBytes a) h w ltac:(lia) Ra)
        as [-> Ua].
      destruct (div_cons_high x0 (SetBytes x) h w ltac:(lia) Rx)
        as [-> Ux].
      assert (0 < 2 ^ (w - h)) by (apply Z.pow_pos_nonneg; lia).
      split; [intros [-> ->]; reflexivity|]. intros Q.
      remember (2 ^ (w - h)) as R eqn:HR.
      remember (SetBytes a / 2 ^ h) as u eqn:Hu.
      remember (SetBytes x / 2 ^ h) as v eqn:Hv.
      assert (a0 = x0).
      { destruct (Z.lt_total a0 x0) as [L|[L|L]]; [|exact L|].
        - assert ((a0 + 1) * R <= x0 * R) by (apply Z.mul_le_mono_nonneg_r; lia).
          lia.
        - assert ((x0 + 1) * R <= a0 * R) by (apply Z.mul_le_mono_nonneg_r; lia).
          lia. }
      subst x0. split; [reflexivity|lia].
    + apply Z.leb_gt in E. cbn [sameNetwork].
      rewrite maskBytes_zero, sameNetwork_zero_mask, andb_true_r.
      rewrite !land_mask_byte by lia. rewrite Z.eqb_eq.
      replace (w + 8 - n) with (w + (8 - n)) by lia.
      rewrite !div_cons_low by lia.
      assert (0 < 2 ^ (8 - n)) by (apply Z.pow_pos_nonneg; lia).
      split; [nia|intros ->; reflexivity].
Qed.

(** [Mask], byte by byte under a mask of [n] leading ones, clears the host
    bits of the value. *)
Lemma zip_land_maskBytes (l : nat) :
  forall (n : Z) (a : list Z),
    length a = l -> is_bytes a = true -> 0 <= n <= 8 * Z.of_nat l ->
    let h := 8 * Z.of_nat l - n in
    length (zip_with Z.land a (maskBytes l n)) = l
    /\ is_bytes (zip_with Z.land a (maskBytes l n)) = true
    /\ SetBytes (zip_with Z.land a (maskBytes l n))
       = SetBytes a / 2 ^ h * 2 ^ h.
Proof.
  induction l as [|l IH]; intros n [|a0 a] La Ba Hn h;
    try discriminate La.
  - repeat split.
  - injection La as La. apply is_bytes_cons in Ba as [Ha0 Ba].
    pose proof (SetBytes_range a Ba) as Ra. rewrite La, pow256 in Ra.
    subst h. replace (8 * Z.of_nat (S l)) with (8 * Z.of_nat l + 8) by lia.
    set (w := 8 * Z.of_nat l) in *.
    cbn [maskBytes]. destruct (8 <=? n) eqn:E.
    + apply Z.leb_le in E. cbn [zip_with].
      destruct (IH (n - 8) a La Ba ltac:(lia)) as (L & B & V).
      fold w in V. rewrite land_255 by lia.
      split; [cbn [length]; now rewrite L|].
      split; [apply is_bytes_cons; now split|].
      rewrite !SetBytes_cons, L, La, pow256, V. fold w.
      replace (w + 8 - n) with (w - (n - 8)) by lia.
      remember (w - (n - 8)) as h eqn:Hh.
      destruct (div_cons_high a0 (SetBytes a) h w ltac:(lia) Ra)
        as [-> _].
      replace (2 ^ w) with (2 ^ (w - h) * 2 ^ h)
        by (rewrite <- Z.pow_add_r by lia; f_equal; lia).
      lia.
    + apply Z.leb_gt in E. cbn [zip_with].
      destruct (IH 0 a La Ba ltac:(lia)) as (L & B & V).
      rewrite land_mask_byte by lia.
      assert (V0 : SetBytes (zip_with Z.land a (maskBytes l 0)) = 0).
      { rewrite V. fold w. rewrite Z.sub_0_r.
        rewrite Z.div_small by lia. reflexivity. }
      assert (0 < 2 ^ (8 - n)) by (apply Z.pow_pos_nonneg; lia).
      pose proof (Z.mul_div_le a0 (2 ^ (8 - n)) ltac:(lia)).
      pose proof (Z.div_pos a0 (2 ^ (8 - n)) ltac:(lia) ltac:(lia)).
      split; [cbn [length]; now rewrite L|].
      split; [apply is_bytes_cons; split; [nia|exact B]|].
      rewrite !SetBytes_cons, L, La, pow256, V0. fold w.
      replace (w + 8 - n) with (w + (8 - n)) by lia.
      rewrite div_cons_low by lia.
      rewrite Z.pow_add_r by lia. lia.
Qed.

Lemma maskBytes_length (l : nat) (n : Z) : length (maskBytes l n) = l.
Proof.
  revert n. induction l as [|l IH]; intros n; [reflexivity|].
  cbn [maskBytes]. destruct (8 <=? n); cbn [length]; now rewrite IH.
Qed.

Lemma CIDRMask_32 (p : Z) : 0 <= p <= 32 -> CIDRMask p 32 = maskBytes 4 p.
Proof.
  intros Hp. unfold CIDRMask. cbn [Z.eqb Pos.eqb orb negb].
  replace (p <? 0) with false by (symmetry; apply Z.ltb_ge; lia).
  replace (32 <? p) with false by (symmetry; apply Z.ltb_ge; lia).
  reflexivity.
Qed.

Lemma To4_of_4 (ip : IP) : length ip = 4%nat -> To4 ip = ip.
Proof. intros H. unfold To4, IPv4len. now rewrite H. Qed.

Lemma reparse_bytesOf4 (v : Z) :
  reparse (bytesOf 4 v) = v4InV6Prefix ++ bytesOf 4 v.
Proof.
  pose proof (bytesOf_length 4 v) as L.
  destruct (To16_cases (bytesOf 4 v)) as [[_ E]|[[H _]|(H & _)]];
    [exact E|lia|lia].
Qed.

(** An address is in an IPv4 block exactly when its value above the host
    bits is that of the network. *)
Lemma Contains_IPv4 (ip : IP) (p v : Z) :
  is_bytes ip = true -> length ip = 4%nat -> 0 <= p <= 32 ->
  Contains (mkIPNet ip (CIDRMask p 32)) (bytesOf 4 v) = true
  <-> SetBytes ip / 2 ^ (32 - p) = (v mod 2 ^ 32) / 2 ^ (32 - p).
Proof.
  intros Hb Hl Hp. unfold Contains, networkNumberAndMask.
  cbn [IPNet_IP IPNet_Mask].
  rewrite CIDRMask_32 by exact Hp.
  rewrite (To4_of_4 ip Hl), (To4_of_4 (bytesOf 4 v) (bytesOf_length 4 v)).
  assert (isNil ip = false) as -> by (destruct ip; [discriminate|reflexivity]).
  assert (isNil (bytesOf 4 v) = false) as ->
      by (pose proof (bytesOf_length 4 v);
          destruct (bytesOf 4 v); [discriminate|reflexivity]).
  cbv iota. cbn [andb].
  rewrite maskBytes_length, Hl, bytesOf_length.
  cbn [IPv4len Nat.eqb negb]. rewrite Hl. cbn [Nat.eqb negb].
  rewrite (sameNetwork_maskBytes 4 p ip (bytesOf 4 v) Hl
             (bytesOf_length 4 v) Hb (bytesOf_is_bytes 4 v) ltac:(lia)).
  rewrite SetBytes_bytesOf. reflexivity.
Qed.

(** [NetHosts] on an IPv4 block of prefix length [p] from 1 to 32: for
    [p <= 31] the addresses strictly between the network address and the
    broadcast address, in order and in 16-byte form, [2^(32-p) - 2] of
    them; for [p = 32] a panic. *)
Lemma NetHosts_IPv4 (ip : IP) (p : Z) (fuel : nat) :
  is_bytes ip = true -> length ip = 4%nat -> 1 <= p <= 32 ->
  let h := 32 - p in
  let s := SetBytes ip / 2 ^ h * 2 ^ h in
  (Z.to_nat (2 ^ h) < fuel)%nat ->
  NetHosts fuel (mkIPNet ip (CIDRMask p 32))
  = if p =? 32 then Panics
    else Returns (map (fun j => v4InV6Prefix ++ bytesOf 4 (s + 1 + Z.of_nat j))
                      (seq 0 (Z.to_nat (2 ^ h - 2)))).
Proof.
  intros Hb Hl Hp h s Hf.
  pose proof (SetBytes_range ip Hb) as Rv. rewrite Hl in Rv.
  change (256 ^ Z.of_nat 4) with (2 ^ 32) in Rv.
  assert (H2h : 0 < 2 ^ h) by (apply Z.pow_pos_nonneg; lia).
  assert (E32 : 2 ^ 32 = 2 ^ p * 2 ^ h)
    by (rewrite <- Z.pow_add_r by lia; f_equal; lia).
  remember (SetBytes ip / 2 ^ h) as q eqn:Hq.
  assert (Rq : 0 <= q < 2 ^ p).
  { subst q. split; [apply Z.div_pos; lia|].
    apply Z.div_lt_upper_bound; [lia|]. rewrite Z.mul_comm, <- E32. lia. }
  assert (Rs : 0 <= s /\ s + 2 ^ h <= 2 ^ 32) by (unfold s; nia).
  assert (Hmask : Mask (IPNet_IP (mkIPNet ip (CIDRMask p 32)))
                       (IPNet_Mask (mkIPNet ip (CIDRMask p 32)))
                  = bytesOf 4 s).
  { cbn [IPNet_IP IPNet_Mask]. rewrite CIDRMask_32 by lia.
    unfold Mask. cbv zeta.
    repeat (progress (rewrite ?maskBytes_length, ?Hl;
                      cbn [IPv4len IPv6len Nat.eqb andb negb])).
    destruct (zip_land_maskBytes 4 p ip Hl Hb ltac:(lia)) as (L & B & V).
    rewrite (bytes_canonical _ 4 B L), V.
    change (8 * Z.of_nat 4 - p) with h. rewrite <- Hq. reflexivity. }
  assert (Hin : forall j : nat,
             (j < Z.to_nat (2 ^ h))%nat ->
             Contains (mkIPNet ip (CIDRMask p 32))
                      (bytesOf 4 (s + Z.of_nat j)) = true).
  { intros j Hj. apply Contains_IPv4; [assumption|assumption|lia|].
    fold h. rewrite <- Hq. rewrite Z.mod_small by lia.
    unfold s. rewrite Z.div_add_l by lia.
    rewrite (Z.div_small (Z.of_nat j)) by lia. lia. }
  assert (Hout : Contains (mkIPNet ip (CIDRMask p 32))
                          (bytesOf 4 (s + Z.of_nat (Z.to_nat (2 ^ h))))
                 = false).
  { apply not_true_iff_false. intros C.
    apply Contains_IPv4 in C; [|assumption|assumption|lia].
    fold h in C. rewrite <- Hq in C. rewrite Z2Nat.id in C by lia.
    replace (s + 2 ^ h) with ((q + 1) * 2 ^ h) in * by (unfold s; lia).
    destruct (Z_lt_le_dec ((q + 1) * 2 ^ h) (2 ^ 32)) as [L|G].
    - rewrite Z.mod_small in C by lia.
      rewrite Z.div_mul in C by lia. lia.
    - assert (Q : (q + 1) * 2 ^ h = 2 ^ 32) by lia.
      rewrite Q, Z.mod_same, Z.div_0_l in C by lia.
      assert (1 < 2 ^ p) by (apply Z.pow_gt_1; lia).
      nia. }
  rewrite (NetHosts_enumerated _ 4 (Z.to_nat (2 ^ h)) fuel s
             Hmask Hin Hout Hf).
  destruct (p =? 32) eqn:Ep.
  - apply Z.eqb_eq in Ep. subst p. reflexivity.
  - apply Z.eqb_neq in Ep.
    assert (2 <= 2 ^ h)
      by (change 2 with (2 ^ 1) at 1; apply Z.pow_le_mono_r; lia).
    replace (2 <=? Z.to_nat (2 ^ h))%nat with true
      by (symmetry; apply Nat.leb_le; lia).
    replace (Z.to_nat (2 ^ h) - 2)%nat with (Z.to_nat (2 ^ h - 2)) by lia.
    reflexivity.
Qed.

End NetHostsFacts.

(** ** [NetFirstLast] *)

Section FirstLastFacts.

Lemma intToIP_loop_copies (ipBytes : list Z) (n : nat) :
  (length ipBytes <= n)%nat ->
  forall (k i : nat) (ret : list Z),
    (1 <= i)%nat -> (i + k = length ipBytes + 1)%nat -> length ret = n ->
    intToIP_loop k i ipBytes ret
    = Some (take (n - length ipBytes) ret ++ take k ipBytes
                 ++ drop (S n - i) ret).
Proof.
  intros Hm. induction k as [|k IH]; intros i ret Hi Hik Hret.
  - cbn [intToIP_loop]. rewrite take_0. cbn [app].
    replace (S n - i)%nat with (n - length ipBytes)%nat by lia.
    now rewrite take_drop.
  - cbn [intToIP_loop].
    replace (length ret <? i)%nat with false
      by (symmetry; apply Nat.ltb_ge; lia).
    destruct (lookup_lt_is_Some_2 ipBytes (length ipBytes - i)%nat
                                  ltac:(lia)) as [b Hb].
    rewrite Hb, Hret.
    rewrite IH by (rewrite ?length_insert; lia).
    f_equal.
    rewrite take_insert_ge by lia. f_equal.
    replace (length ipBytes - i)%nat with k in Hb by lia.
    rewrite (take_S_r _ _ _ Hb), <- app_assoc. f_equal. cbn [app].
    replace (S n - S i)%nat with (n - i)%nat by lia.
    replace (S n - i)%nat with (S (n - i)) by lia.
    rewrite drop_insert_ge by lia.
    replace (n - i - (n - i))%nat with O by lia.
    destruct (drop (n - i) ret) as [|x r] eqn:E.
    + apply (f_equal (@length Z)) in E. rewrite length_drop in E.
      simpl in E. lia.
    + cbn [insert list_insert]. f_equal.
      change (S (n - i)) with (1 + (n - i))%nat.
      rewrite Nat.add_comm, <- drop_drop, E. reflexivity.
Qed.

Lemma intToIP_loop_panics (ipBytes : list Z) (n : nat) :
  (n < length ipBytes)%nat ->
  forall (k i : nat) (ret : list Z),
    (1 <= i <= n + 1)%nat -> (i + k = length ipBytes + 1)%nat ->
    length ret = n ->
    intToIP_loop k i ipBytes ret = None.
Proof.
  intros Hm. induction k as [|k IH]; intros i ret Hi Hik Hret; [lia|].
  cbn [intToIP_loop]. destruct (length ret <? i)%nat eqn:E; [reflexivity|].
  apply Nat.ltb_ge in E.
  destruct (lookup_lt_is_Some_2 ipBytes (length ipBytes - i)%nat
                                ltac:(lia)) as [b Hb].
  rewrite Hb. apply IH; rewrite ?length_insert; lia.
Qed.

Lemma bytesOf_S_small (n : nat) (v : Z) :
  0 <= v < 256 ^ Z.of_nat n -> bytesOf (S n) v = 0 :: bytesOf n v.
Proof.
  revert v. induction n as [|n IH]; intros v Hv.
  - change (256 ^ Z.of_nat 0) with 1 in Hv.
    replace v with 0 by lia. reflexivity.
  - rewrite Nat2Z.inj_succ, Z.pow_succ_r in Hv by lia.
    change (bytesOf (S (S n)) v)
      with (bytesOf (S n) (v / 256) ++ [v mod 256]).
    rewrite IH.
    + reflexivity.
    + split; [apply Z.div_pos; lia|apply Z.div_lt_upper_bound; lia].
Qed.

Lemma bytesOf_pad (d m : nat) (v : Z) :
  0 <= v < 256 ^ Z.of_nat m ->
  bytesOf (d + m) v = replicate d 0 ++ bytesOf m v.
Proof.
  intros Hv. induction d as [|d IH]; [reflexivity|].
  cbn [Nat.add replicate app]. rewrite <- IH. apply bytesOf_S_small.
  split; [lia|]. eapply Z.lt_le_trans; [apply Hv|].
  apply Z.pow_le_mono_r; lia.
Qed.

Lemma Bytes_bytesOf (v : Z) :
  0 <= v ->
  exists m : nat, Bytes v = bytesOf m v /\ 0 <= v < 256 ^ Z.of_nat m
                  /\ forall n : nat, v < 256 ^ Z.of_nat n -> (m <= n)%nat.
Proof.
  intros Hv. unfold Bytes. destruct (v <=? 0) eqn:E.
  - apply Z.leb_le in E. exists O. replace v with 0 by lia.
    repeat split; try reflexivity; lia.
  - apply Z.leb_gt in E.
    pose proof (Z.log2_nonneg v) as L0.
    pose proof (Z.log2_spec v E) as [L1 L2].
    pose proof (Z.div_pos (Z.log2 v) 8 L0 ltac:(lia)) as D0.
    pose proof (Z.mul_div_le (Z.log2 v) 8 ltac:(lia)) as D1.
    pose proof (Z.mul_succ_div_gt (Z.log2 v) 8 ltac:(lia)) as D2.
    exists (Z.to_nat (Z.log2 v / 8 + 1)). split; [reflexivity|].
    rewrite Z2Nat.id by lia.
    assert (P : forall k, 0 <= k -> 256 ^ k = 2 ^ (8 * k)).
    { intros k Hk. change 256 with (2 ^ 8). now rewrite <- Z.pow_mul_r. }
    split.
    + split; [lia|]. rewrite P by lia.
      eapply Z.lt_le_trans; [exact L2|]. apply Z.pow_le_mono_r; lia.
    + intros n Hn. rewrite P in Hn by lia.
      assert (Z.log2 v < 8 * Z.of_nat n).
      { apply Z.log2_lt_pow2; [lia|exact Hn]. }
      assert (Z.log2 v / 8 < Z.of_nat n)
        by (apply Z.div_lt_upper_bound; lia).
      lia.
Qed.

(** [intToIP] gives the big-endian form, [bits/8] bytes wide, of a value
    that fits, and panics on a value that does not. *)
Lemma intToIP_fits (v : Z) (n : nat) :
  0 <= v < 256 ^ Z.of_nat n ->
  intToIP v (8 * Z.of_nat n) = Some (bytesOf n v).
Proof.
  intros Hv. unfold intToIP.
  replace (Z.to_nat (8 * Z.of_nat n ÷ 8)) with n
    by (rewrite Z.mul_comm, Z.quot_mul by lia; lia).
  destruct (Bytes_bytesOf v ltac:(lia)) as (m & -> & Hm & Hmin).
  specialize (Hmin n ltac:(lia)).
  rewrite (intToIP_loop_copies (bytesOf m v) n);
    rewrite ?bytesOf_length, ?length_replicate; try lia.
  f_equal. rewrite take_replicate, Nat.min_l by lia.
  rewrite firstn_all2 by (rewrite bytesOf_length; lia).
  rewrite drop_ge by (rewrite length_replicate; lia).
  rewrite app_nil_r.
  replace n with ((n - m) + m)%nat at 2 by lia.
  symmetry. now apply bytesOf_pad.
Qed.

Lemma intToIP_overflow (v : Z) (n : nat) :
  256 ^ Z.of_nat n <= v ->
  intToIP v (8 * Z.of_nat n) = None.
Proof.
  intros Hv. unfold intToIP.
  replace (Z.to_nat (8 * Z.of_nat n ÷ 8)) with n
    by (rewrite Z.mul_comm, Z.quot_mul by lia; lia).
  assert (0 < 256 ^ Z.of_nat n) by (apply Z.pow_pos_nonneg; lia).
  destruct (Bytes_bytesOf v ltac:(lia)) as (m & -> & Hm & _).
  assert (n < m)%nat.
  { destruct (le_lt_dec m n) as [L|L]; [|exact L]. exfalso.
    assert (256 ^ Z.of_nat m <= 256 ^ Z.of_nat n)
      by (apply Z.pow_le_mono_r; lia). lia. }
  apply (intToIP_loop_panics (bytesOf m v) n);
    rewrite ?bytesOf_length, ?length_replicate; lia.
Qed.

Lemma leadingOnes_range (fuel : nat) (v : Z) :
  0 <= (leadingOnes fuel v).1 <= Z.of_nat fuel.
Proof.
  revert v. induction fuel as [|fuel IH]; intros v; cbn [leadingOnes].
  - simpl. lia.
  - destruct (Z.land v 128 =? 0); [simpl; lia|].
    specialize (IH (Z.shiftl v 1 mod 256)).
    destruct (leadingOnes fuel (Z.shiftl v 1 mod 256)) as [n v'].
    cbn [fst] in *. lia.
Qed.

Lemma simpleMaskLength_range (m : IPMask) :
  simpleMaskLength m = -1
  \/ 0 <= simpleMaskLength m <= 8 * Z.of_nat (length m).
Proof.
  induction m as [|v m IH]; [right; simpl; lia|].
  cbn [simpleMaskLength length]. destruct (v =? 255).
  - destruct (simpleMaskLength m =? -1) eqn:E; [now left|].
    apply Z.eqb_neq in E. right. lia.
  - pose proof (leadingOnes_range 8 v) as R.
    destruct (leadingOnes 8 v) as [n v']. cbn [fst] in R.
    destruct (negb (v' =? 0)); [now left|].
    destruct (isZeros m); [right; lia|now left].
Qed.

(** [Size] gives either [(0, 0)] or the number of leading ones and the
    width of the mask. *)
Lemma Size_range (m : IPMask) :
  Size m = (0, 0)
  \/ exists p : Z, Size m = (p, 8 * Z.of_nat (length m))
                   /\ 0 <= p <= 8 * Z.of_nat (length m).
Proof.
  unfold Size. destruct (simpleMaskLength_range m) as [E|R].
  - rewrite E. now left.
  - destruct (simpleMaskLength m =? -1) eqn:E; [now left|].
    right. exists (simpleMaskLength m). split; [f_equal; lia|lia].
Qed.

Lemma lor_below (a b n : Z) :
  0 <= n -> 0 <= a < 2 ^ n -> 0 <= b < 2 ^ n -> 0 <= Z.lor a b < 2 ^ n.
Proof.
  intros Hn Ha Hb. split; [apply Z.lor_nonneg; lia|].
  destruct (Z.eq_dec (Z.lor a b) 0) as [->|N]; [lia|].
  apply Z.log2_lt_pow2; [pose proof (proj2 (Z.lor_nonneg a b)); lia|].
  rewrite Z.log2_lor by lia.
  destruct (Z.eq_dec a 0) as [->|Na], (Z.eq_dec b 0) as [->|Nb];
    try (exfalso; apply N; reflexivity).
  - rewrite Z.max_r by (apply Z.log2_nonneg). apply Z.log2_lt_pow2; lia.
  - rewrite Z.max_l by (apply Z.log2_nonneg). apply Z.log2_lt_pow2; lia.
  - apply Z.max_lub_lt; apply Z.log2_lt_pow2; lia.
Qed.

(** [NetFirstLast] on a network whose address and mask have one width, the
    address being in 4-byte form or a 16-byte address with no 4-byte form:
    [first] is the address of the network, and [last] is [first] when the
    mask covers all bits (or is no run of ones) and is [first] or-ed with
    [(1 << hostBits) - 1] otherwise. *)
Lemma NetFirstLast_last (cidr : IPNet) :
  let first := IPNet_IP cidr in
  let p := (Size (IPNet_Mask cidr)).1 in
  let bits := (Size (IPNet_Mask cidr)).2 in
  (p = bits -> NetFirstLast cidr = Returns (first, first))
  /\ (p <> bits ->
      is_bytes first = true ->
      (length first = 4%nat /\ length (IPNet_Mask cidr) = 4%nat)
      \/ (length first = 16%nat /\ length (IPNet_Mask cidr) = 16%nat
          /\ To4 first = []) ->
      0 <= p < bits /\ bits = 8 * Z.of_nat (length first)
      /\ NetFirstLast cidr
         = Returns (first,
                    bytesOf (length first)
                            (Z.lor (SetBytes first) (2 ^ (bits - p) - 1)))).
Proof.
  intros first p bits. unfold NetFirstLast. fold first.
  destruct (Size (IPNet_Mask cidr)) as [p' bits'] eqn:ES.
  cbn [fst snd] in p, bits. subst p bits. split.
  - intros ->. now rewrite Z.eqb_refl.
  - intros Hne Hb Hshape.
    replace (p' =? bits') with false by (symmetry; now apply Z.eqb_neq).
    destruct (Size_range (IPNet_Mask cidr)) as [E|(q & E & Hq)];
      rewrite ES in E; injection E as -> ->; [congruence|].
    assert (Hlen : length (IPNet_Mask cidr) = length first)
      by (destruct Hshape as [[-> ->]|(-> & -> & _)]; reflexivity).
    rewrite Hlen in *.
    assert (Hbits : ipToInt first
                    = (SetBytes first, 8 * Z.of_nat (length first))).
    { unfold ipToInt. rewrite IsIPv6_negb, IsIPv4_bytes.
      destruct Hshape as [[H4 _]|(H16 & _ & HT)].
      - rewrite H4. reflexivity.
      - rewrite H16, HT. reflexivity. }
    rewrite Hbits.
    assert (Hw : 8 * Z.of_nat (length first) <= 128)
      by (destruct Hshape as [[-> _]|(-> & _)]; simpl; lia).
    split; [lia|]. split; [reflexivity|].
    set (w := 8 * Z.of_nat (length first)) in *.
    rewrite Z.mod_small by lia.
    rewrite Z.shiftl_1_l, Z.lor_comm.
    pose proof (SetBytes_range first Hb) as Rv.
    assert (P : 256 ^ Z.of_nat (length first) = 2 ^ w).
    { unfold w. change 256 with (2 ^ 8). rewrite <- Z.pow_mul_r by lia.
      reflexivity. }
    assert (Rh : 0 <= 2 ^ (w - q) - 1 < 2 ^ w).
    { pose proof (Z.pow_pos_nonneg 2 (w - q) ltac:(lia) ltac:(lia)).
      assert (2 ^ (w - q) <= 2 ^ w) by (apply Z.pow_le_mono_r; lia). lia. }
    pose proof (lor_below (SetBytes first) (2 ^ (w - q) - 1) w
                          ltac:(lia) ltac:(lia) Rh) as Rl.
    rewrite <- P in Rl. subst w. rewrite intToIP_fits by exact Rl.
    reflexivity.
Qed.


(** C8.  A network whose address is an IPv4 address in 16-byte form with
    a 4-byte mask, as [net.IPNet{IP: net.ParseIP("192.168.1.0"), Mask:
    net.CIDRMask(24, 32)}], is a network [Contains] works with; on it
    [ipToInt] gives a 48-bit value with the width 32, and [intToIP]
    panics on the index below zero.  With the address in 4-byte form the
    call returns [192.168.1.0] and [192.168.1.255]. *)
Theorem NetFirstLast_mapped_IPv4_panics :
  let cidr := mkIPNet (IPv4 192 168 1 0) (CIDRMask 24 32) in
  Contains cidr (IPv4 192 168 1 77) = true
  /\ Size (IPNet_Mask cidr) = (24, 32)
  /\ ipToInt (IPNet_IP cidr) = (281473913979136, 32)
  /\ length (Bytes (Z.lor (Z.shiftl 1 8 - 1) 281473913979136)) = 6%nat
  /\ NetFirstLast cidr = Panics
  /\ NetFirstLast (mkIPNet [192; 168; 1; 0] (CIDRMask 24 32))
     = Returns ([192; 168; 1; 0], [192; 168; 1; 255]).
Proof.
  repeat split; vm_compute; reflexivity.
Qed.

End FirstLastFacts.

(* ================================================================== *)
(** * Further properties *)
(* ================================================================== *)

(** ** [ReverseIP] *)

Section ReverseIPFacts.

Local Abbreviation dots s := (CountChar s "."%char).

Lemma dots_cons (c : ascii) (s : string) :
  dots (String c s) = 0 <-> Ascii.eqb c "." = false /\ dots s = 0.
Proof.
  pose proof (CountChar_nonneg s ".") as H. simpl.
  destruct (Ascii.eqb c "."); split; try lia; intros [? ?];
    try discriminate; lia.
Qed.

Lemma SplitChar_not_nil (s : string) : SplitChar s "." <> [].
Proof.
  induction s as [|c s IH]; simpl; [discriminate|].
  destruct (Ascii.eqb c "."); [discriminate|].
  destruct (SplitChar s "."); [contradiction|discriminate].
Qed.

(** In front of a dot, a piece without a dot is the first piece. *)
Lemma SplitChar_piece (x rest : string) :
  dots x = 0 ->
  SplitChar (x +:+ "." +:+ rest) "." = x :: SplitChar rest ".".
Proof.
  induction x as [|c x IH]; intros H; [reflexivity|].
  apply dots_cons in H as [Hc Hx].
  change (String c x +:+ "." +:+ rest) with (String c (x +:+ "." +:+ rest)).
  cbn [SplitChar]. rewrite Hc, (IH Hx). reflexivity.
Qed.

Lemma SplitChar_whole (x : string) : dots x = 0 -> SplitChar x "." = [x].
Proof.
  induction x as [|c x IH]; intros H; [reflexivity|].
  apply dots_cons in H as [Hc Hx]. cbn [SplitChar].
  now rewrite Hc, (IH Hx).
Qed.

Lemma SplitChar_Join (parts : list string) :
  parts <> [] -> Forall (fun p => dots p = 0) parts ->
  SplitChar (Join parts ".") "." = parts.
Proof.
  induction parts as [|x [|y r] IH]; intros Hne Hall; [congruence| |].
  - simpl. apply SplitChar_whole. now inversion Hall.
  - change (Join (x :: y :: r) ".") with (x +:+ "." +:+ Join (y :: r) ".").
    inversion Hall as [|? ? Hx Hr]; subst.
    rewrite SplitChar_piece by exact Hx. f_equal.
    apply IH; [discriminate|exact Hr].
Qed.

Lemma SplitChar_no_dots (s : string) :
  Forall (fun p => dots p = 0) (SplitChar s ".").
Proof.
  induction s as [|c s IH]; cbn [SplitChar].
  - constructor; [reflexivity|constructor].
  - destruct (Ascii.eqb c ".") eqn:E.
    + constructor; [reflexivity|exact IH].
    + destruct (SplitChar s ".") as [|x xs]; [repeat constructor|].
      * simpl. now rewrite E.
      * inversion IH; subst. constructor; [|assumption].
        apply dots_cons. now split.
Qed.

Lemma Join_SplitChar (s : string) : Join (SplitChar s ".") "." = s.
Proof.
  induction s as [|c s IH]; [reflexivity|]. cbn [SplitChar].
  destruct (Ascii.eqb c ".") eqn:E.
  - apply Ascii.eqb_eq in E. subst c.
    pose proof (SplitChar_not_nil s) as N.
    destruct (SplitChar s ".") as [|x xs]; [contradiction|].
    change (Join ("" :: x :: xs) ".") with (String "." (Join (x :: xs) ".")).
    now rewrite IH.
  - pose proof (SplitChar_not_nil s) as N.
    destruct (SplitChar s ".") as [|x [|y xs]]; [contradiction| |].
    + simpl in *. now rewrite IH.
    + change (Join (String c x :: y :: xs) ".")
        with (String c (Join (x :: y :: xs) ".")).
      now rewrite IH.
Qed.

Lemma ReverseIP_rev (ip : string) :
  ReverseIP ip = Join (rev (SplitChar ip ".")) ".".
Proof.
  unfold ReverseIP. rewrite reversed_loop_rev by lia.
  now rewrite firstn_all.
Qed.

Lemma append_length (a b : string) :
  String.length (a +:+ b) = (String.length a + String.length b)%nat.
Proof.
  induction a as [|c a IH]; [reflexivity|].
  change (String c a +:+ b) with (String c (a +:+ b)). simpl.
  now rewrite IH.
Qed.

Lemma Join_length (l : list string) :
  l <> [] ->
  Z.of_nat (String.length (Join l "."))
  = fold_right (fun p n => Z.of_nat (String.length p) + 1 + n) (-1) l.
Proof.
  induction l as [|x [|y r] IH]; intros Hne; [congruence| |].
  - simpl. lia.
  - change (Join (x :: y :: r) ".") with (x +:+ "." +:+ Join (y :: r) ".").
    rewrite !append_length. cbn [fold_right] in *.
    rewrite !Nat2Z.inj_add, IH by discriminate. simpl. lia.
Qed.

Lemma fold_length_rev (l : list string) (z : Z) :
  fold_right (fun p n => Z.of_nat (String.length p) + 1 + n) z (rev l)
  = fold_right (fun p n => Z.of_nat (String.length p) + 1 + n) z l.
Proof.
  revert z. induction l as [|x l IH]; intros z; [reflexivity|].
  cbn [rev fold_right]. rewrite fold_right_app, IH. cbn [fold_right].
  generalize (Z.of_nat (String.length x) + 1) as k. intros k.
  clear IH. induction l as [|y l IHl]; cbn [fold_right]; [lia|].
  rewrite IHl. lia.
Qed.

(** X1.  [ReverseIP] of dot-separated pieces is the pieces in reverse
    order, dot-separated: the pieces may be empty or of any length, and a
    text without a dot comes back unchanged. *)
Theorem ReverseIP_pieces (parts : list string) :
  parts <> [] -> Forall (fun p => CountChar p "." = 0) parts ->
  ReverseIP (Join parts ".") = Join (rev parts) ".".
Proof.
  intros Hne Hall. now rewrite ReverseIP_rev, SplitChar_Join.
Qed.

Lemma ReverseIP_pieces_witness :
  ReverseIP (Join ["192"; "168"; "1"; "20"]%string ".")
  = Join (rev ["192"; "168"; "1"; "20"]%string) ".".
Proof.
  apply ReverseIP_pieces; [discriminate|].
  repeat constructor.
Defined.

(** X2.  [ReverseIP] is its own inverse on every string, and keeps the
    length of the string. *)
Theorem ReverseIP_involutive (ip : string) :
  ReverseIP (ReverseIP ip) = ip
  /\ String.length (ReverseIP ip) = String.length ip.
Proof.
  pose proof (SplitChar_not_nil ip) as N.
  assert (N' : rev (SplitChar ip ".") <> []).
  { intros E. apply N. apply (f_equal (@rev string)) in E.
    now rewrite rev_involutive in E. }
  split.
  - rewrite (ReverseIP_rev ip), ReverseIP_rev, SplitChar_Join.
    + rewrite rev_involutive. apply Join_SplitChar.
    + exact N'.
    + apply Forall_forall. intros p Hp.
      pose proof (SplitChar_no_dots ip) as F.
      rewrite Forall_forall in F. apply F.
      apply list_elem_of_In. apply list_elem_of_In in Hp.
      now apply in_rev.
  - apply Nat2Z.inj. rewrite ReverseIP_rev, Join_length by exact N'.
    rewrite fold_length_rev, <- Join_length by exact N.
    now rewrite Join_SplitChar.
Qed.

End ReverseIPFacts.

(** ** [HexString] *)

Section HexStringFacts.
Import HexSpec NibbleSpec.

Lemma hex_byte_decodes (tn : Z) :
  0 <= tn < 256 ->
  16 * unhexChar (charAt "0123456789abcdef" (Z.shiftr tn 4))
  + unhexChar (charAt "0123456789abcdef" (Z.land tn 15)) = tn.
Proof.
  intros H.
  assert (T : forallb
                (fun n =>
                   16 * unhexChar (charAt "0123456789abcdef"
                                          (Z.shiftr (Z.of_nat n) 4))
                   + unhexChar (charAt "0123456789abcdef"
                                       (Z.land (Z.of_nat n) 15))
                   =? Z.of_nat n)
                (seq 0 256) = true) by (vm_compute; reflexivity).
  rewrite forallb_forall in T.
  specialize (T (Z.to_nat tn) ltac:(apply in_seq; lia)).
  rewrite Z2Nat.id in T by lia. now apply Z.eqb_eq.
Qed.

Lemma HexString_length (b : list Z) :
  String.length (HexString b) = (2 * length b)%nat.
Proof.
  induction b as [|tn b IH]; [reflexivity|].
  cbn [HexString String.length length]. rewrite IH. lia.
Qed.

(** X3.  [HexString] writes two characters per byte and goes through a
    concatenation of slices piece by piece. *)
Theorem HexString_length_app :
  (forall b : list Z,
      String.length (HexString b) = (2 * length b)%nat)
  /\ (forall a b : list Z,
         HexString (a ++ b) = HexString a +:+ HexString b).
Proof.
  split; [exact HexString_length|].
  - intros a b. induction a as [|tn a IH]; [reflexivity|].
    cbn [app HexString]. rewrite IH. reflexivity.
Qed.

(** X4.  The text [HexString] gives for a slice of bytes spells these
    bytes back, so two slices of bytes with one text are equal. *)
Theorem HexString_decodes :
  (forall b : list Z, is_bytes b = true -> unhex (HexString b) = b)
  /\ (forall a b : list Z,
         is_bytes a = true -> is_bytes b = true ->
         HexString a = HexString b -> a = b).
Proof.
  assert (D : forall b, is_bytes b = true -> unhex (HexString b) = b).
  { induction b as [|tn b IH]; intros H; [reflexivity|].
    apply is_bytes_cons in H as [Ht Hb].
    cbn [HexString unhex]. now rewrite hex_byte_decodes, IH. }
  split; [exact D|].
  intros a b Ha Hb E. rewrite <- (D a Ha), <- (D b Hb). now rewrite E.
Qed.

Lemma HexString_decodes_witness :
  unhex (HexString [0; 255; 16]) = [0; 255; 16]
  /\ (HexString [0; 255; 16] = HexString [0; 255; 16] ->
      [0; 255; 16] = [0; 255; 16]).
Proof.
  split.
  - apply (proj1 HexString_decodes). reflexivity.
  - apply (proj2 HexString_decodes); reflexivity.
Defined.







End HexStringFacts.

(** ** [addrInc], [addrDec], [ipToInt] and [intToIP] *)

Section AddrFacts.

Lemma addrDec_length (ip : IP) : length (addrDec ip) = length ip.
Proof.
  unfold addrDec. rewrite length_rev, <- (length_rev ip).
  induction (rev ip) as [|b r IH]; [reflexivity|]. cbn [addrDec_loop].
  destruct (0 <? b); cbn [length]; now rewrite ?IH.
Qed.

(** X6.  On a slice of bytes [addrInc] adds one to the big-endian value
    and [addrDec] subtracts one, both modulo [256^len]: the address after
    the highest one is the lowest one, and back.  The slice keeps its
    length and stays a slice of bytes. *)
Theorem addrInc_addrDec_value (ip : IP) :
  is_bytes ip = true ->
  (SetBytes (addrInc ip) = (SetBytes ip + 1) mod 256 ^ Z.of_nat (length ip)
   /\ length (addrInc ip) = length ip /\ is_bytes (addrInc ip) = true)
  /\ (SetBytes (addrDec ip) = (SetBytes ip - 1) mod 256 ^ Z.of_nat (length ip)
      /\ length (addrDec ip) = length ip /\ is_bytes (addrDec ip) = true).
Proof.
  intros Hb. pose proof (bytes_canonical ip (length ip) Hb eq_refl) as E.
  assert (Ei : addrInc ip = bytesOf (length ip) (SetBytes ip + 1))
    by (rewrite E at 1; apply addrInc_bytesOf).
  assert (Ed : addrDec ip = bytesOf (length ip) (SetBytes ip - 1))
    by (rewrite E at 1; apply addrDec_bytesOf).
  rewrite addrInc_length, addrDec_length, Ei, Ed.
  rewrite !SetBytes_bytesOf, !bytesOf_is_bytes. repeat split.
Qed.

Lemma addrInc_addrDec_value_witness :
  SetBytes (addrInc [255; 255; 255; 255]) = 0
  /\ SetBytes (addrDec [0; 0; 0; 0]) = 256 ^ 4 - 1.
Proof.
  split.
  - rewrite (proj1 (proj1 (addrInc_addrDec_value [255; 255; 255; 255]
                                                  eq_refl))).
    reflexivity.
  - rewrite (proj1 (proj2 (addrInc_addrDec_value [0; 0; 0; 0] eq_refl))).
    reflexivity.
Defined.

(** X7.  On a slice of bytes [addrDec] undoes [addrInc] and [addrInc]
    undoes [addrDec], the wrap-around included. *)
Theorem addrInc_addrDec_inverse (ip : IP) :
  is_bytes ip = true ->
  addrDec (addrInc ip) = ip /\ addrInc (addrDec ip) = ip.
Proof.
  intros Hb. pose proof (bytes_canonical ip (length ip) Hb eq_refl) as E.
  remember (SetBytes ip) as v eqn:Hv. clear Hv. rewrite E.
  rewrite addrInc_bytesOf, !addrDec_bytesOf, addrInc_bytesOf.
  split; f_equal; lia.
Qed.

Lemma addrInc_addrDec_inverse_witness :
  addrDec (addrInc [10; 0; 255; 255]) = [10; 0; 255; 255]
  /\ addrInc (addrDec [10; 1; 0; 0]) = [10; 1; 0; 0].
Proof.
  split.
  - apply (proj1 (addrInc_addrDec_inverse [10; 0; 255; 255] eq_refl)).
  - apply (proj2 (addrInc_addrDec_inverse [10; 1; 0; 0] eq_refl)).
Defined.

(** X8.  [ipToInt] gives the width 128 for a 16-byte address that has no
    4-byte form and the width 32 for every other slice, the [nil] slice and
    slices that are no address included: its last [return], with the width
    0, is never reached. *)
Theorem ipToInt_width (ip : IP) :
  (ipToInt ip).1 = SetBytes ip
  /\ (ipToInt ip).2
     = (if (length ip =? 16)%nat && isNil (To4 ip) then 128 else 32).
Proof.
  unfold ipToInt. rewrite IsIPv6_negb, IsIPv4_bytes.
  destruct ((length ip =? 16)%nat && isNil (To4 ip)); split; reflexivity.
Qed.

(** X9.  [intToIP(v, bits)], [bits] a multiple of 8: a value below
    [2^bits] gives its big-endian form on [bits/8] bytes, padded with zero
    bytes in front; a value of [2^bits] or more panics. *)
Theorem intToIP_width (v : Z) (n : nat) :
  0 <= v ->
  (v < 256 ^ Z.of_nat n ->
   exists ret : IP,
     intToIP v (8 * Z.of_nat n) = Some ret /\ length ret = n
     /\ is_bytes ret = true /\ SetBytes ret = v)
  /\ (256 ^ Z.of_nat n <= v -> intToIP v (8 * Z.of_nat n) = None).
Proof.
  intros Hv. split.
  - intros Hlt. exists (bytesOf n v).
    rewrite intToIP_fits, bytesOf_length, bytesOf_is_bytes, SetBytes_bytesOf
      by lia.
    repeat split. apply Z.mod_small. lia.
  - apply intToIP_overflow.
Qed.

Lemma intToIP_width_witness :
  (exists ret : IP,
      intToIP 258 (8 * Z.of_nat 4) = Some ret /\ length ret = 4%nat
      /\ is_bytes ret = true /\ SetBytes ret = 258)
  /\ intToIP (256 ^ 4) (8 * Z.of_nat 4) = None.
Proof.
  split.
  - apply (proj1 (intToIP_width 258 4 ltac:(lia))). reflexivity.
  - apply (proj2 (intToIP_width (256 ^ 4) 4 ltac:(lia))). reflexivity.
Defined.

(** An address with a 4-byte form held in 16 bytes has a value of 48
    significant bits. *)
Lemma mapped_value (ip : IP) :
  is_bytes ip = true -> length ip = 16%nat -> To4 ip <> [] ->
  65535 * 2 ^ 32 <= SetBytes ip < 65535 * 2 ^ 32 + 2 ^ 32.
Proof.
  intros Hb Hl Ht. unfold To4, IPv4len, IPv6len in Ht. rewrite Hl in Ht.
  cbn [Nat.eqb andb] in Ht.
  destruct (isZeros (take 10 ip) && (nth 10 ip 0 =? 255)
            && (nth 11 ip 0 =? 255)) eqn:E; [|congruence].
  apply andb_true_iff in E as [E E11]. apply andb_true_iff in E as [E0 E10].
  do 16 (destruct ip as [|? ip]; [discriminate Hl|]).
  destruct ip; [|discriminate Hl].
  cbn [take firstn isZeros forallb nth] in E0, E10, E11.
  repeat (apply andb_true_iff in E0 as [?%Z.eqb_eq E0]).
  apply Z.eqb_eq in E10, E11. subst.
  repeat (apply is_bytes_cons in Hb as [? Hb]).
  unfold SetBytes. cbn [fold_left]. lia.
Qed.

(** X10.  [intToIP] undoes [ipToInt] on an address of 4 bytes and on a
    16-byte address that has no 4-byte form; on an IPv4 address held in 16
    bytes the value does not fit the width and [intToIP] panics. *)
Theorem intToIP_ipToInt (ip : IP) :
  is_bytes ip = true ->
  (length ip = 4%nat \/ (length ip = 16%nat /\ To4 ip = []) ->
   intToIP (ipToInt ip).1 (ipToInt ip).2 = Some ip)
  /\ (length ip = 16%nat /\ To4 ip <> [] ->
      intToIP (ipToInt ip).1 (ipToInt ip).2 = None).
Proof.
  intros Hb.
  assert (W : (ipToInt ip).1 = SetBytes ip
              /\ (ipToInt ip).2
                 = (if (length ip =? 16)%nat && isNil (To4 ip)
                    then 128 else 32)).
  { unfold ipToInt. rewrite IsIPv6_negb, IsIPv4_bytes.
    destruct ((length ip =? 16)%nat && isNil (To4 ip)); split; reflexivity. }
  destruct W as [-> ->].
  pose proof (SetBytes_range ip Hb) as R. split.
  - intros [H4|[H16 HT]].
    + rewrite H4 in *. cbn [Nat.eqb andb].
      change 32 with (8 * Z.of_nat 4). rewrite intToIP_fits by exact R.
      f_equal. symmetry. now apply bytes_canonical.
    + rewrite H16, HT in *. cbn [Nat.eqb andb isNil].
      change 128 with (8 * Z.of_nat 16). rewrite intToIP_fits by exact R.
      f_equal. symmetry. now apply bytes_canonical.
  - intros [H16 HT]. pose proof (mapped_value ip Hb H16 HT) as V.
    rewrite H16. cbn [Nat.eqb andb].
    assert (isNil (To4 ip) = false) as ->
        by (destruct (To4 ip); [congruence|reflexivity]).
    change 32 with (8 * Z.of_nat 4). apply intToIP_overflow.
    change (256 ^ Z.of_nat 4) with (2 ^ 32). lia.
Qed.

Lemma intToIP_ipToInt_witness :
  intToIP (ipToInt [10; 0; 0; 1]).1 (ipToInt [10; 0; 0; 1]).2
  = Some [10; 0; 0; 1]
  /\ intToIP (ipToInt (IPv4 10 0 0 1)).1 (ipToInt (IPv4 10 0 0 1)).2 = None.
Proof.
  split.
  - apply (proj1 (intToIP_ipToInt [10; 0; 0; 1] eq_refl)). now left.
  - apply (proj2 (intToIP_ipToInt (IPv4 10 0 0 1) eq_refl)).
    split; [reflexivity|discriminate].
Defined.

End AddrFacts.

(** ** [NetFirstLast], [NetHosts] and [RangeHosts] on whole blocks *)

Section BlockFacts.

Lemma lor_ones_low (a h : Z) :
  0 <= h -> Z.lor a (2 ^ h - 1) = a / 2 ^ h * 2 ^ h + 2 ^ h - 1.
Proof.
  intros Hh. pose proof (Z.add_lor_land a (2 ^ h - 1)) as E.
  replace (2 ^ h - 1) with (Z.ones h) in E at 2
    by (rewrite Z.ones_equiv; lia).
  rewrite Z.land_ones in E by exact Hh.
  pose proof (Z.div_mod a (2 ^ h) ltac:(lia)) as D. lia.
Qed.

Lemma Size_CIDRMask (p bits : Z) :
  bits = 32 \/ bits = 128 -> 0 <= p <= bits ->
  Size (CIDRMask p bits) = (p, bits)
  /\ length (CIDRMask p bits) = Z.to_nat (bits / 8).
Proof.
  intros Hbits Hp.
  assert (A : forallb (fun k => let p := Z.of_nat k in
                         (if Z.eqb (Size (CIDRMask p 32)).1 p then true
                          else false)
                         && (Z.eqb (Size (CIDRMask p 32)).2 32)
                         && (length (CIDRMask p 32) =? 4)%nat)
                      (seq 0 33) = true) by (vm_compute; reflexivity).
  assert (B : forallb (fun k => let p := Z.of_nat k in
                         (if Z.eqb (Size (CIDRMask p 128)).1 p then true
                          else false)
                         && (Z.eqb (Size (CIDRMask p 128)).2 128)
                         && (length (CIDRMask p 128) =? 16)%nat)
                      (seq 0 129) = true) by (vm_compute; reflexivity).
  rewrite forallb_forall in A, B.
  destruct Hbits as [-> | ->].
  - specialize (A (Z.to_nat p)). rewrite in_seq, Z2Nat.id in A by lia.
    specialize (A ltac:(lia)). cbv zeta in A.
    apply andb_true_iff in A as [A A3]. apply andb_true_iff in A as [A1 A2].
    destruct (Z.eqb_spec (Size (CIDRMask p 32)).1 p) as [E1|]; [|discriminate].
    apply Z.eqb_eq in A2. apply Nat.eqb_eq in A3.
    split; [|exact A3].
    destruct (Size (CIDRMask p 32)); cbn in *; congruence.
  - specialize (B (Z.to_nat p)). rewrite in_seq, Z2Nat.id in B by lia.
    specialize (B ltac:(lia)). cbv zeta in B.
    apply andb_true_iff in B as [B B3]. apply andb_true_iff in B as [B1 B2].
    destruct (Z.eqb_spec (Size (CIDRMask p 128)).1 p) as [E1|]; [|discriminate].
    apply Z.eqb_eq in B2. apply Nat.eqb_eq in B3.
    split; [|exact B3].
    destruct (Size (CIDRMask p 128)); cbn in *; congruence.
Qed.

Lemma NetFirstLast_run (ip : IP) (p bits : Z) :
  is_bytes ip = true ->
  (bits = 32 /\ length ip = 4%nat)
  \/ (bits = 128 /\ length ip = 16%nat /\ To4 ip = []) ->
  0 <= p <= bits ->
  NetFirstLast (mkIPNet ip (CIDRMask p bits))
  = Returns (ip, bytesOf (length ip)
                         (SetBytes ip / 2 ^ (bits - p) * 2 ^ (bits - p)
                          + 2 ^ (bits - p) - 1)).
Proof.
  intros Hb Hf Hp.
  assert (Hbits : bits = 32 \/ bits = 128) by (destruct Hf; intuition).
  destruct (Size_CIDRMask p bits Hbits Hp) as [HS HL].
  destruct (NetFirstLast_last (mkIPNet ip (CIDRMask p bits))) as [Heq Hne].
  cbn [IPNet_IP IPNet_Mask] in Heq, Hne. rewrite HS in Heq, Hne.
  cbn [fst snd] in Heq, Hne.
  destruct (Z.eq_dec p bits) as [E|N].
  - rewrite (Heq E). subst p. rewrite Z.sub_diag.
    change (2 ^ 0) with 1. rewrite Z.div_1_r, Z.mul_1_r.
    replace (SetBytes ip + 1 - 1) with (SetBytes ip) by lia.
    now rewrite bytesOf_SetBytes.
  - destruct (Hne N Hb) as (_ & _ & ->).
    + rewrite HL. destruct Hf as [[-> H]|(-> & H & T)]; [left|right];
        repeat split; assumption.
    + rewrite lor_ones_low by lia. reflexivity.
Qed.

(** X11.  [NetFirstLast] on the block [ip/p], IPv4 in 4 bytes or IPv6:
    the first address is [ip] as given, host bits included, and the last
    one is [ip] with all host bits set.  It never panics there; for
    [p = bits] both are [ip]. *)
Theorem NetFirstLast_block (ip : IP) (p bits : Z) :
  is_bytes ip = true ->
  (bits = 32 /\ length ip = 4%nat)
  \/ (bits = 128 /\ length ip = 16%nat /\ To4 ip = []) ->
  0 <= p <= bits ->
  exists last : IP,
    NetFirstLast (mkIPNet ip (CIDRMask p bits)) = Returns (ip, last)
    /\ length last = length ip /\ is_bytes last = true
    /\ SetBytes last / 2 ^ (bits - p) = SetBytes ip / 2 ^ (bits - p)
    /\ SetBytes last mod 2 ^ (bits - p) = 2 ^ (bits - p) - 1.
Proof.
  intros Hb Hf Hp. eexists. split; [apply NetFirstLast_run; assumption|].
  rewrite bytesOf_length, bytesOf_is_bytes, SetBytes_bytesOf.
  assert (H2h : 0 < 2 ^ (bits - p)) by (apply Z.pow_pos_nonneg; lia).
  pose proof (SetBytes_range ip Hb) as R.
  assert (EW : 256 ^ Z.of_nat (length ip) = 2 ^ p * 2 ^ (bits - p)).
  { rewrite <- Z.pow_add_r by lia.
    replace (p + (bits - p)) with bits by lia.
    destruct Hf as [[-> ->]|(-> & -> & _)]; reflexivity. }
  remember (2 ^ (bits - p)) as H eqn:HH.
  remember (SetBytes ip / H) as q eqn:Hq.
  assert (Rq : 0 <= q < 2 ^ p).
  { subst q. split; [apply Z.div_pos; lia|].
    apply Z.div_lt_upper_bound; [lia|]. rewrite Z.mul_comm, <- EW. lia. }
  rewrite Z.mod_small by nia.
  repeat split.
  - replace (q * H + H - 1) with (H - 1 + q * H) by lia.
    rewrite Z.div_add by lia. rewrite Z.div_small by lia. lia.
  - replace (q * H + H - 1) with (H - 1 + q * H) by lia.
    rewrite Z.mod_add by lia. apply Z.mod_small. lia.
Qed.

Lemma NetFirstLast_block_witness :
  exists last : IP,
    NetFirstLast (mkIPNet [10; 1; 2; 3] (CIDRMask 24 32))
    = Returns ([10; 1; 2; 3], last)
    /\ length last = length [10; 1; 2; 3] /\ is_bytes last = true
    /\ SetBytes last / 2 ^ (32 - 24) = SetBytes [10; 1; 2; 3] / 2 ^ (32 - 24)
    /\ SetBytes last mod 2 ^ (32 - 24) = 2 ^ (32 - 24) - 1.
Proof.
  apply (NetFirstLast_block [10; 1; 2; 3] 24 32); [reflexivity| |lia].
  left. split; reflexivity.
Defined.

Lemma Contains_zero_mask4 (ip x : IP) :
  length ip = 4%nat -> length x = 4%nat ->
  Contains (mkIPNet ip [0; 0; 0; 0]) x = true.
Proof.
  intros Hi Hx.
  destruct ip as [|i0 [|i1 [|i2 [|i3 [|? ?]]]]]; try discriminate Hi.
  destruct x as [|a [|b [|c [|d [|e r]]]]]; try discriminate Hx.
  unfold Contains. cbn. now rewrite !Z.land_0_r.
Qed.

(** X12.  [NetHosts] on an IPv4 block of prefix length 0 never returns:
    every 4-byte address is in the block, and after [255.255.255.255]
    [addrInc] gives [0.0.0.0], so the loop condition holds for ever while
    the slice of results grows. *)
Theorem NetHosts_IPv4_zero_prefix (ip : IP) (fuel : nat) :
  length ip = 4%nat ->
  NetHosts fuel (mkIPNet ip (CIDRMask 0 32)) = OutOfFuel.
Proof.
  intros Hl. change (CIDRMask 0 32) with [0; 0; 0; 0]. unfold NetHosts.
  cbn [IPNet_IP IPNet_Mask].
  assert (H : forall (x : IP) (ips : list IP),
             length x = 4%nat ->
             NetHosts_loop fuel (mkIPNet ip [0; 0; 0; 0]) x ips = None).
  { induction fuel as [|fuel IH]; intros x ips Hx; [reflexivity|].
    cbn [NetHosts_loop]. rewrite Contains_zero_mask4 by assumption.
    apply IH. now rewrite addrInc_length. }
  rewrite H; [reflexivity|].
  destruct ip as [|i0 [|i1 [|i2 [|i3 [|? ?]]]]]; try discriminate Hl.
  reflexivity.
Qed.

Lemma NetHosts_IPv4_zero_prefix_witness :
  NetHosts 1000 (mkIPNet [10; 0; 0; 0] (CIDRMask 0 32)) = OutOfFuel.
Proof. apply (NetHosts_IPv4_zero_prefix [10; 0; 0; 0] 1000). reflexivity. Defined.

Lemma SetBytes_app (a b : list Z) :
  SetBytes (a ++ b) = SetBytes a * 256 ^ Z.of_nat (length b) + SetBytes b.
Proof.
  induction b as [|x b IH] using rev_ind.
  - rewrite app_nil_r. cbn. lia.
  - rewrite app_assoc, !SetBytes_snoc, IH, length_app. cbn [length].
    replace (Z.of_nat (length b + 1)) with (Z.succ (Z.of_nat (length b)))
      by lia.
    rewrite Z.pow_succ_r by lia. lia.
Qed.

(** An IPv4 address in 16 bytes, by its value. *)
Lemma mapped_bytesOf (v : Z) :
  0 <= v < 2 ^ 32 ->
  v4InV6Prefix ++ bytesOf 4 v = bytesOf 16 (65535 * 2 ^ 32 + v).
Proof.
  intros Hv.
  rewrite (bytes_canonical (v4InV6Prefix ++ bytesOf 4 v) 16).
  - f_equal. rewrite SetBytes_app, SetBytes_bytesOf, bytesOf_length.
    change (256 ^ Z.of_nat 4) with (2 ^ 32). rewrite Z.mod_small by lia.
    reflexivity.
  - rewrite is_bytes_app, bytesOf_is_bytes. reflexivity.
  - rewrite length_app, bytesOf_length. reflexivity.
Qed.

(** X13.  On an IPv4 block of prefix length 1 to 31 whose address is the
    network address, [NetHosts] gives what [RangeHosts] gives from the
    address after the first one of [NetFirstLast] to the address before
    its last one. *)
Theorem NetHosts_RangeHosts (ip : IP) (p : Z) (fuel : nat) :
  is_bytes ip = true -> length ip = 4%nat -> 1 <= p <= 31 ->
  SetBytes ip mod 2 ^ (32 - p) = 0 ->
  (Z.to_nat (2 ^ (32 - p)) < fuel)%nat ->
  exists first last : IP,
    NetFirstLast (mkIPNet ip (CIDRMask p 32)) = Returns (first, last)
    /\ NetHosts fuel (mkIPNet ip (CIDRMask p 32))
       = RangeHosts fuel (addrInc first) (addrDec last)
    /\ exists ips : list IP,
        NetHosts fuel (mkIPNet ip (CIDRMask p 32)) = Returns ips
        /\ Z.of_nat (length ips) = 2 ^ (32 - p) - 2.
Proof.
  intros Hb Hl Hp Hm Hf.
  pose proof (SetBytes_range ip Hb) as Rv. rewrite Hl in Rv.
  change (256 ^ Z.of_nat 4) with (2 ^ 32) in Rv.
  remember (32 - p) as h eqn:Hh.
  assert (H2h : 2 <= 2 ^ h)
    by (change 2 with (2 ^ 1) at 1; apply Z.pow_le_mono_r; lia).
  assert (E32 : 2 ^ 32 = 2 ^ p * 2 ^ h)
    by (rewrite <- Z.pow_add_r by lia; f_equal; lia).
  pose proof (Z.div_mod (SetBytes ip) (2 ^ h) ltac:(lia)) as D.
  rewrite Hm, Z.add_0_r, Z.mul_comm in D.
  remember (SetBytes ip) as v eqn:Hv.
  assert (Rq : 0 <= v / 2 ^ h < 2 ^ p).
  { split; [apply Z.div_pos; lia|].
    apply Z.div_lt_upper_bound; [lia|]. rewrite Z.mul_comm, <- E32. lia. }
  assert (Rs : v + 2 ^ h <= 2 ^ 32) by nia.
  pose proof (NetHosts_IPv4 ip p fuel Hb Hl ltac:(lia)) as NH.
  cbv zeta in NH. rewrite <- Hh, <- Hv, <- D in NH.
  specialize (NH Hf).
  destruct (Z.eqb_spec p 32) as [?|_]; [lia|].
  pose proof (NetFirstLast_run ip p 32 Hb ltac:(left; split; [reflexivity|exact Hl])
                ltac:(lia)) as FL.
  rewrite <- Hh, <- Hv, <- D, Hl in FL.
  exists ip, (bytesOf 4 (v + 2 ^ h - 1)). split; [exact FL|].
  split.
  2:{ eexists. split; [exact NH|]. rewrite length_map, length_seq. lia. }
  rewrite NH.
  rewrite (bytes_canonical ip 4 Hb Hl) at 1. rewrite <- Hv.
  rewrite addrInc_bytesOf, addrDec_bytesOf.
  replace (v + 2 ^ h - 1 - 1) with (v + 2 ^ h - 2) by lia.
  assert (T : forall x : Z, 0 <= x < 2 ^ 32 ->
                To16 (bytesOf 4 x) = bytesOf 16 (65535 * 2 ^ 32 + x)).
  { intros x Hx. change (To16 (bytesOf 4 x)) with (reparse (bytesOf 4 x)).
    rewrite reparse_bytesOf4. now apply mapped_bytesOf. }
  assert (V : forall x : Z, 0 <= x < 2 ^ 32 ->
                SetBytes (To16 (bytesOf 4 x)) = 65535 * 2 ^ 32 + x).
  { intros x Hx. rewrite T, SetBytes_bytesOf by exact Hx.
    apply Z.mod_small. change (256 ^ Z.of_nat 16) with (2 ^ 128). lia. }
  assert (NN : forall x : Z, 0 <= x < 2 ^ 32 -> To16 (bytesOf 4 x) <> []).
  { intros x Hx. rewrite T by exact Hx. intros C.
    pose proof (bytesOf16_not_nil (65535 * 2 ^ 32 + x)) as K.
    rewrite C in K. discriminate K. }
  destruct (Z.eq_dec h 1) as [E1|N1].
  - (* two addresses: nothing is left between them *)
    subst h. rewrite E1 in *. change (2 ^ 1) with 2 in *.
    symmetry. rewrite RangeHosts_empty;
      [reflexivity|apply bytesOf_is_bytes|apply bytesOf_is_bytes|].
    do 4 right. rewrite !V by lia. lia.
  - assert (H4 : 4 <= 2 ^ h)
      by (change 4 with (2 ^ 2); apply Z.pow_le_mono_r; lia).
    assert (R1 : 0 <= v + 1 < 2 ^ 32) by lia.
    assert (R2 : 0 <= v + 2 ^ h - 2 < 2 ^ 32) by lia.
    pose proof (RangeHosts_inclusive fuel (bytesOf 4 (v + 1))
                  (bytesOf 4 (v + 2 ^ h - 2))
                  (bytesOf_is_bytes _ _) (bytesOf_is_bytes _ _)
                  (NN _ R1) (NN _ R2)) as RI.
    cbv zeta in RI. rewrite !V in RI by lia.
    rewrite RI; [| lia | change (256 ^ 16) with (2 ^ 128); lia | lia].
    f_equal. unfold addrSeq.
    replace (65535 * 2 ^ 32 + (v + 2 ^ h - 2) - (65535 * 2 ^ 32 + (v + 1)) + 1)
      with (2 ^ h - 2) by lia.
    apply map_ext_in. intros j Hj. apply in_seq in Hj.
    rewrite mapped_bytesOf by lia. f_equal. lia.
Qed.

Lemma NetHosts_RangeHosts_witness :
  exists first last : IP,
    NetFirstLast (mkIPNet [192; 168; 1; 0] (CIDRMask 29 32))
    = Returns (first, last)
    /\ NetHosts 9 (mkIPNet [192; 168; 1; 0] (CIDRMask 29 32))
       = RangeHosts 9 (addrInc first) (addrDec last)
    /\ exists ips : list IP,
        NetHosts 9 (mkIPNet [192; 168; 1; 0] (CIDRMask 29 32)) = Returns ips
        /\ Z.of_nat (length ips) = 2 ^ (32 - 29) - 2.
Proof.
  apply (NetHosts_RangeHosts [192; 168; 1; 0] 29 9);
    [reflexivity|reflexivity|lia|reflexivity|vm_compute; lia].
Defined.

(** X14.  [RangeHosts] sees its arguments through their 16-byte form only:
    an IPv4 address in 4 bytes and the same address in 16 bytes give the
    same result. *)
Theorem RangeHosts_To16 (fuel : nat) (start end_ : IP) :
  RangeHosts fuel start end_ = RangeHosts fuel (To16 start) (To16 end_).
Proof.
  unfold RangeHosts, reparse. rewrite !To16_idem.
  destruct (isNil start) eqn:Es.
  { destruct start; [|discriminate Es]. reflexivity. }
  destruct (isNil end_) eqn:Ee.
  { destruct end_; [|discriminate Ee].
    change (To16 []) with (@nil Z). cbn [isNil orb].
    now rewrite orb_true_r. }
  cbn [orb]. destruct (isNil (To16 start) || isNil (To16 end_)); reflexivity.
Qed.

(** X15.  [RangeHosts] on two addresses: nothing when [end] is not above
    [start], the two being equal included; otherwise the addresses from
    [start] to [end], both ends in, in increasing order and in 16-byte
    form. *)
Theorem RangeHosts_range (fuel : nat) (start end_ : IP) :
  is_bytes start = true -> is_bytes end_ = true ->
  To16 start <> [] -> To16 end_ <> [] ->
  (SetBytes (To16 end_) <= SetBytes (To16 start) ->
   RangeHosts fuel start end_ = Returns [])
  /\ (SetBytes (To16 start) < SetBytes (To16 end_) ->
      SetBytes (To16 end_) - SetBytes (To16 start) + 1 < 256 ^ 16 ->
      (Z.to_nat (SetBytes (To16 end_) - SetBytes (To16 start) + 1) < fuel)%nat ->
      exists ips : list IP,
        RangeHosts fuel start end_ = Returns ips
        /\ Z.of_nat (length ips)
           = SetBytes (To16 end_) - SetBytes (To16 start) + 1
        /\ nth 0 ips [] = To16 start
        /\ nth (length ips - 1) ips [] = To16 end_
        /\ forall k : nat, (k < length ips)%nat ->
             nth k ips [] = bytesOf 16 (SetBytes (To16 start) + Z.of_nat k)).
Proof.
  intros Hs He Ns Ne. split.
  - intros Hle. apply RangeHosts_empty; [assumption|assumption|].
    do 4 right. exact Hle.
  - intros Hlt Hw Hf.
    pose proof (RangeHosts_inclusive fuel start end_ Hs He Ns Ne) as RI.
    cbv zeta in RI. specialize (RI Hlt Hw Hf).
    remember (SetBytes (To16 start)) as s eqn:Hs'.
    remember (SetBytes (To16 end_)) as e eqn:He'.
    remember (Z.to_nat (e - s + 1)) as n eqn:Hn.
    assert (Hnth : forall k : nat, (k < n)%nat ->
               nth k (addrSeq s n) [] = bytesOf 16 (s + Z.of_nat k)).
    { intros k Hk. unfold addrSeq.
      rewrite (nth_indep _ [] ((fun k => bytesOf 16 (s + Z.of_nat k)) O))
        by (rewrite length_map, length_seq; exact Hk).
      rewrite (map_nth (fun k => bytesOf 16 (s + Z.of_nat k))).
      rewrite seq_nth by exact Hk. reflexivity. }
    assert (Ln : length (addrSeq s n) = n)
      by (unfold addrSeq; now rewrite length_map, length_seq).
    exists (addrSeq s n). split; [exact RI|]. rewrite Ln.
    split; [lia|]. split; [|split; [|exact Hnth]].
    + rewrite Hnth by lia. rewrite Z.add_0_r, Hs'.
      symmetry. now apply To16_bytesOf.
    + rewrite Hnth by lia.
      replace (s + Z.of_nat (n - 1)) with e by lia. rewrite He'.
      symmetry. now apply To16_bytesOf.
Qed.

Lemma RangeHosts_range_witness :
  RangeHosts 5 [10; 0; 0; 5] [10; 0; 0; 5] = Returns []
  /\ exists ips : list IP,
      RangeHosts 5 [10; 0; 0; 5] [10; 0; 0; 7] = Returns ips
      /\ Z.of_nat (length ips)
         = SetBytes (To16 [10; 0; 0; 7]) - SetBytes (To16 [10; 0; 0; 5]) + 1
      /\ nth 0 ips [] = To16 [10; 0; 0; 5]
      /\ nth (length ips - 1) ips [] = To16 [10; 0; 0; 7]
      /\ forall k : nat, (k < length ips)%nat ->
           nth k ips []
           = bytesOf 16 (SetBytes (To16 [10; 0; 0; 5]) + Z.of_nat k).
Proof.
  split.
  - apply (proj1 (RangeHosts_range 5 [10; 0; 0; 5] [10; 0; 0; 5]
                    eq_refl eq_refl ltac:(discriminate) ltac:(discriminate))).
    vm_compute. discriminate.
  - apply (proj2 (RangeHosts_range 5 [10; 0; 0; 5] [10; 0; 0; 7]
                    eq_refl eq_refl ltac:(discriminate) ltac:(discriminate)));
      vm_compute; [reflexivity|reflexivity|lia].
Defined.

End BlockFacts.

(** ** [CIDRSubset] on IPv4 blocks and for small counts *)

Section SubsetBlockFacts.

Lemma Contains_IPv4_block (cidr : IPNet) (x : IP) :
  To4 (IPNet_IP cidr) <> [] -> length x = 16%nat ->
  Contains cidr x = true -> To4 x <> [].
Proof.
  intros H4 Hx HC T. unfold Contains, networkNumberAndMask in HC.
  rewrite T in HC. cbn [isNil] in HC.
  destruct (To4_length (IPNet_IP cidr)) as [L|L]; [|contradiction].
  destruct (To4 (IPNet_IP cidr)) as [|a r] eqn:E; [contradiction|].
  unfold IPv4len, IPv6len in HC. cbn [isNil andb] in HC. rewrite L in HC.
  cbn [Nat.eqb negb] in HC.
  destruct (length (IPNet_Mask cidr) =? 4)%nat;
    [|destruct (length (IPNet_Mask cidr) =? 16)%nat];
    cbv iota in HC; rewrite ?L, Hx in HC; cbn in HC; discriminate HC.
Qed.

(** X16.  [CIDRSubset] on an IPv4 block and a center inside it: the walk
    down takes [b] steps and the walk up [f] steps, neither more than
    [count/2], and the result is the [b + f + 1] addresses from [b] below
    the center to [f] above it, the center the one at index [b].  The
    result is never empty there and never wraps around. *)
Theorem CIDRSubset_IPv4 (cidr : IPNet) (center : IP) (num : Z) :
  To4 (IPNet_IP cidr) <> [] ->
  is_bytes center = true -> length center = 16%nat ->
  - 2 ^ 63 <= num < 2 ^ 63 ->
  Contains cidr center = true ->
  exists b f : nat,
    (b <= Z.to_nat (num ÷ 2))%nat /\ (f <= Z.to_nat (num ÷ 2))%nat
    /\ nth b (addrSeq (SetBytes center - Z.of_nat b) (b + f + 1)) [] = center
    /\ forall fuel : nat,
        (b + f + 1 < fuel)%nat ->
        CIDRSubset fuel cidr center num
        = Returns (addrSeq (SetBytes center - Z.of_nat b) (b + f + 1)).
Proof.
  intros H4 Hb Hl Hnum HC.
  pose proof (mapped_value center Hb Hl
                (Contains_IPv4_block cidr center H4 Hl HC)) as Rc.
  pose proof (bytes_canonical center 16 Hb Hl) as Hc.
  remember (SetBytes center) as c eqn:Ec. clear Ec. subst center.
  remember (Z.to_nat (num ÷ 2)) as off eqn:Hoff.
  pose proof (quot2_bound num ltac:(lia)) as Boff. rewrite <- Hoff in Boff.
  destruct (walkDown_run cidr off c) as (b & Hb1 & Hwd & Hind & _).
  destruct (walkUp_run cidr off c) as (f & Hf1 & Hwu & _ & _).
  exists b, f. split; [exact Hb1|]. split; [exact Hf1|].
  assert (HM : 2 ^ 128 = 256 ^ Z.of_nat 16) by reflexivity.
  assert (Lo : 0 <= c - Z.of_nat b).
  { destruct b as [|b']; [lia|].
    pose proof (Hind (S b') ltac:(lia)) as Cb.
    apply (Contains_IPv4_block cidr _ H4 (bytesOf_length 16 _)) in Cb.
    apply (mapped_value _ (bytesOf_is_bytes 16 _) (bytesOf_length 16 _))
      in Cb.
    rewrite SetBytes_bytesOf, <- HM in Cb.
    destruct (Z_lt_le_dec (c - Z.of_nat (S b')) 0) as [N|N]; [|exact N].
    exfalso.
    assert ((c - Z.of_nat (S b')) mod 2 ^ 128
            = c - Z.of_nat (S b') + 2 ^ 128)
      by (symmetry; apply Z.mod_unique with (-1); lia).
    lia. }
  assert (Hbf : Z.of_nat b + Z.of_nat f < 2 ^ 64) by lia.
  assert (Es : (c - Z.of_nat b) mod 2 ^ 128 = c - Z.of_nat b)
    by (apply Z.mod_small; lia).
  assert (Ee : (c + Z.of_nat f) mod 2 ^ 128 = c + Z.of_nat f)
    by (apply Z.mod_small; lia).
  split.
  - unfold addrSeq.
    rewrite (nth_indep _ [] ((fun k => bytesOf 16 (c - Z.of_nat b
                                                    + Z.of_nat k)) O))
      by (rewrite length_map, length_seq; lia).
    rewrite (map_nth (fun k => bytesOf 16 (c - Z.of_nat b + Z.of_nat k))).
    rewrite seq_nth by lia. f_equal. lia.
  - intros fuel Hfuel.
    destruct (CIDRSubset_walk cidr c b f fuel Hbf) as (_ & _ & _ & R).
    rewrite Es, Ee in R.
    replace (Z.to_nat (c + Z.of_nat f - (c - Z.of_nat b) + 1))
      with (b + f + 1)%nat in R by lia.
    unfold CIDRSubset. rewrite HC. cbn [negb]. rewrite <- Hoff.
    rewrite Hwd, Hwu. apply R, Hfuel.
Qed.

Lemma CIDRSubset_IPv4_witness :
  exists b f : nat,
    (b <= Z.to_nat (4 ÷ 2))%nat /\ (f <= Z.to_nat (4 ÷ 2))%nat
    /\ nth b (addrSeq (SetBytes (IPv4 192 168 1 1) - Z.of_nat b) (b + f + 1))
           [] = IPv4 192 168 1 1
    /\ forall fuel : nat,
        (b + f + 1 < fuel)%nat ->
        CIDRSubset fuel (mkIPNet [192; 168; 1; 0] [255; 255; 255; 0])
                   (IPv4 192 168 1 1) 4
        = Returns (addrSeq (SetBytes (IPv4 192 168 1 1) - Z.of_nat b)
                           (b + f + 1)).
Proof.
  apply (CIDRSubset_IPv4 (mkIPNet [192; 168; 1; 0] [255; 255; 255; 0])
                         (IPv4 192 168 1 1) 4);
    [discriminate|reflexivity|reflexivity|lia|reflexivity].
Defined.

Lemma Equal_refl (ip : IP) : Equal ip ip = true.
Proof.
  unfold Equal. rewrite Nat.eqb_refl. now apply bytesEqual_eq.
Qed.

(** X17.  [CIDRSubset] with a count of 1 or less, zero and negative
    counts included, gives the parsed address alone, whether or not it is
    in the block, and also when the text was no address and the parse
    gave [nil]. *)
Theorem CIDRSubset_small_count (cidr : IPNet) (parsed : IP) (num : Z)
        (fuel : nat) :
  num <= 1 -> CIDRSubset fuel cidr parsed num = Returns [parsed].
Proof.
  intros Hn. unfold CIDRSubset.
  destruct (Contains cidr parsed); [|reflexivity]. cbn [negb].
  assert (Z.to_nat (num ÷ 2) = O) as ->.
  { destruct (Z.eq_dec num 1) as [->|]; [reflexivity|].
    pose proof (Z.quot_le_mono num 0 2 ltac:(lia) ltac:(lia)) as Q.
    change (0 ÷ 2) with 0 in Q. lia. }
  cbn [walkDown walkUp]. now rewrite Equal_refl.
Qed.

Lemma CIDRSubset_small_count_witness :
  CIDRSubset 0 (mkIPNet [192; 168; 1; 0] [255; 255; 255; 0])
             (IPv4 192 168 1 1) (-3)
  = Returns [IPv4 192 168 1 1].
Proof.
  apply (CIDRSubset_small_count
           (mkIPNet [192; 168; 1; 0] [255; 255; 255; 0])
           (IPv4 192 168 1 1) (-3) 0).
  lia.
Defined.

End SubsetBlockFacts.

(** ** [cleanName]: what it keeps and what it ignores *)

Section CleanNameMore.









Lemma append_nil_r (a : string) : a +:+ EmptyString = a.
Proof.
  induction a as [|x a IH]; [reflexivity|].
  change (String x a +:+ EmptyString) with (String x (a +:+ EmptyString)).
  now rewrite IH.
Qed.














End CleanNameMore.

(** ** The headers of the request that [RequestWebPage] sends *)

Section HeaderFacts.
Import GoHttp.

Variable url_Parse_err : string -> option error.
Variable basicAuth : string -> string -> string.

Local Abbreviation build := (buildRequest url_Parse_err basicAuth).

Lemma fold_mapHeader_last (l1 l2 : list (string * string)) (k v : string)
      (req : Request) :
  (forall kv, In kv l2 ->
              CanonicalMIMEHeaderKey kv.1 <> CanonicalMIMEHeaderKey k) ->
  Header (fold_left
            (fun req kv => mapHeader (fun h => Header_Set h kv.1 kv.2) req)
            (l1 ++ (k, v) :: l2) req) !! CanonicalMIMEHeaderKey k = Some v.
Proof.
  intros H. rewrite fold_left_app. cbn [fold_left].
  rewrite fold_mapHeader_lookup by exact H.
  unfold mapHeader, Header_Set. cbn [Header fst snd].
  apply lookup_insert_eq.
Qed.

Lemma fold_mapHeader_keys (hvals : list (string * string)) (req : Request)
      (key : string) :
  is_Some (Header (fold_left
                     (fun req kv =>
                        mapHeader (fun h => Header_Set h kv.1 kv.2) req)
                     hvals req) !! key) ->
  is_Some (Header req !! key)
  \/ exists kv, In kv hvals /\ key = CanonicalMIMEHeaderKey kv.1.
Proof.
  revert req. induction hvals as [|kv hvals IH]; intros req H;
    [now left|].
  cbn [fold_left] in H. destruct (IH _ H) as [S|(kv' & I & E)].
  - unfold mapHeader, Header_Set in S. cbn [Header] in S.
    destruct (decide (CanonicalMIMEHeaderKey kv.1 = key)) as [E|N].
    + right. exists kv. split; [now left|now symmetry].
    + rewrite lookup_insert_ne in S by exact N. now left.
  - right. exists kv'. split; [now right|exact E].
Qed.

(** X21.  The headers of the request that [RequestWebPage] sends.  A
    pair of [hvals] decides the header of its canonical key unless a later
    pair names the same header, whatever the case of the letters of the
    two keys: so [hvals] overrides the three fixed headers and the basic
    authentication.  The headers [User-Agent], [Accept] and
    [Accept-Language] that [hvals] does not name hold the constants of the
    package.  No other header is set than these, [Authorization] and the
    canonical keys of [hvals]. *)
Theorem RequestWebPage_headers (urlstring : string) (body : option Reader)
        (hvals : list (string * string)) (uid secret : string)
        (req : Request) :
  build urlstring body hvals uid secret = inl req ->
  (forall (l1 l2 : list (string * string)) (k v : string),
      hvals = l1 ++ (k, v) :: l2 ->
      (forall kv, In kv l2 ->
                  CanonicalMIMEHeaderKey kv.1 <> CanonicalMIMEHeaderKey k) ->
      Header req !! CanonicalMIMEHeaderKey k = Some v)
  /\ (forall key value : string,
         In (key, value)
            [("User-Agent", UserAgent); ("Accept", Accept);
             ("Accept-Language", AcceptLang)]%string ->
         (forall kv, In kv hvals -> CanonicalMIMEHeaderKey kv.1 <> key) ->
         Header req !! key = Some value)
  /\ (forall key : string,
         is_Some (Header req !! key) ->
         In key ["Authorization"; "User-Agent"; "Accept";
                 "Accept-Language"]%string
         \/ exists kv, In kv hvals /\ key = CanonicalMIMEHeaderKey kv.1).
Proof.
  unfold buildRequest, NewRequest.
  destruct (url_Parse_err urlstring) as [err|]; [discriminate|].
  intros [= <-]. split; [|split].
  - intros l1 l2 k v -> H. now apply fold_mapHeader_last.
  - intros key value Hin Hk. rewrite fold_mapHeader_lookup by exact Hk.
    unfold mapHeader, Header_Set, SetBasicAuth. cbn [Header].
    destruct Hin as [[= <- <-]|[[= <- <-]|[[= <- <-]|[]]]].
    + rewrite lookup_insert_ne by (vm_compute; discriminate).
      rewrite lookup_insert_ne by (vm_compute; discriminate).
      apply lookup_insert_eq.
    + rewrite lookup_insert_ne by (vm_compute; discriminate).
      apply lookup_insert_eq.
    + apply lookup_insert_eq.
  - intros key H. apply fold_mapHeader_keys in H as [H|H]; [left|now right].
    unfold mapHeader, Header_Set, SetBasicAuth in H. cbn [Header] in H.
    change (CanonicalMIMEHeaderKey "Accept-Language")
      with "Accept-Language"%string in H.
    change (CanonicalMIMEHeaderKey "Accept") with "Accept"%string in H.
    change (CanonicalMIMEHeaderKey "User-Agent")
      with "User-Agent"%string in H.
    destruct (decide ("Accept-Language"%string = key)) as [<-|N1];
      [cbn; tauto|].
    rewrite lookup_insert_ne in H by exact N1.
    destruct (decide ("Accept"%string = key)) as [<-|N2]; [cbn; tauto|].
    rewrite lookup_insert_ne in H by exact N2.
    destruct (decide ("User-Agent"%string = key)) as [<-|N3]; [cbn; tauto|].
    rewrite lookup_insert_ne in H by exact N3.
    destruct (nonEmpty uid && nonEmpty secret).
    + unfold mapHeader, Header_Set in H. cbn [Header] in H.
      change (CanonicalMIMEHeaderKey "Authorization")
        with "Authorization"%string in H.
      destruct (decide ("Authorization"%string = key)) as [<-|N4];
        [cbn; tauto|].
      rewrite lookup_insert_ne in H by exact N4.
      cbn [Header] in H. rewrite lookup_empty in H.
      destruct H as [? [=]].
    + cbn [Header] in H. rewrite lookup_empty in H. destruct H as [? [=]].
Qed.

End HeaderFacts.

Lemma RequestWebPage_headers_witness :
  exists req : GoHttp.Request,
    buildRequest (fun _ => None) (fun u p => "Basic " +:+ u +:+ ":" +:+ p)
                 "http://example.com" None
                 [("user-agent", "probe"); ("X-Key", "1")]%string
                 "user" "secret" = inl req
    /\ GoHttp.Header req !! "User-Agent"%string = Some "probe"%string
    /\ GoHttp.Header req !! "Accept"%string = Some Accept.
Proof.
  eexists. split; [reflexivity|].
  destruct (RequestWebPage_headers
              (fun _ => None) (fun u p => "Basic " +:+ u +:+ ":" +:+ p)
              "http://example.com" None
              [("user-agent", "probe"); ("X-Key", "1")]%string
              "user" "secret" _ eq_refl) as (H1 & H2 & _).
  split.
  - apply (H1 [] [("X-Key", "1")]%string "user-agent"%string "probe"%string
              eq_refl).
    intros kv [<-|[]]. vm_compute. discriminate.
  - apply H2; [right; left; reflexivity|].
    intros kv [<-|[<-|[]]]; vm_compute; discriminate.
Defined.

(** ** The links that the crawler follows *)

Section CrawlLinkFacts.

Variable UniqueAppend : list string -> string -> list string.

Local Abbreviation loop := (crawlLoop UniqueAppend).

Lemma crawlLoop_links_inv (pre post : list selected) (ev : selected) :
  forallb goesOn pre = true -> goesOn ev = false ->
  forall (st : loopState) (u : string) (l0 : list string),
    enqueued st = u :: l0 -> NoDup l0 ->
    (forall x : string, x ∈ linksFilter st <-> x ∈ l0) ->
    exists (st' : loopState) (l : list string),
      loop st (pre ++ ev :: post) = Some st'
      /\ enqueued st' = u :: l /\ NoDup l
      /\ (forall x : string, x ∈ linksFilter st' <-> x ∈ l)
      /\ (forall x : string, x ∈ l <-> x ∈ l0 \/ In (RecvLink x) pre).
Proof.
  intros Hpre Hev. induction pre as [|e pre IH]; intros st u l0 He Hn Hf.
  - exists st, l0. cbn [app crawlLoop].
    split; [destruct ev; try discriminate Hev; reflexivity|].
    split; [exact He|]. split; [exact Hn|]. split; [exact Hf|].
    intros x. cbn [In]. tauto.
  - cbn [forallb] in Hpre. apply andb_true_iff in Hpre as [Hx Hpre].
    specialize (IH Hpre). cbn [app crawlLoop].
    destruct e as [l|n| | |]; try discriminate Hx; cbn [turn].
    + destruct (decide (l ∈ linksFilter st)) as [I|N].
      * destruct (IH st u l0 He Hn Hf) as (st' & l' & R & E & D & F & M).
        exists st', l'. repeat (split; [assumption|]).
        intros x. rewrite M. cbn [In]. split; [tauto|].
        intros [H|[[= <-]|H]]; [tauto| |tauto]. left. now apply Hf.
      * destruct (IH (mkLoopState (results st) ({[l]} ∪ linksFilter st)
                                  (enqueued st ++ [l]) (cancelling st))
                     u (l0 ++ [l])) as (st' & l' & R & E & D & F & M).
        -- cbn [enqueued]. now rewrite He.
        -- apply NoDup_app. split; [exact Hn|]. split; [|apply NoDup_singleton].
           intros x Hx0 Hx1. apply list_elem_of_singleton in Hx1. subst x.
           apply N, Hf, Hx0.
        -- intros x. cbn [linksFilter].
           rewrite elem_of_union, elem_of_singleton, elem_of_app,
             list_elem_of_singleton, Hf. tauto.
        -- exists st', l'. repeat (split; [assumption|]).
           intros x. rewrite M, elem_of_app, list_elem_of_singleton.
           cbn [In]. split; [intros [[H | ->] | H]; tauto|].
           intros [H|[[= <-]|H]]; tauto.
    + destruct (IH (mkLoopState (UniqueAppend (results st) n)
                                (linksFilter st) (enqueued st)
                                (cancelling st)) u l0 He Hn Hf)
        as (st' & l' & R & E & D & F & M).
      exists st', l'. repeat (split; [assumption|]).
      intros x. rewrite M. cbn [In]. split; [tauto|].
      intros [H|[[=]|H]]; tauto.
    + destruct (IH (mkLoopState (results st) (linksFilter st)
                                (enqueued st) true) u l0 He Hn Hf)
        as (st' & l' & R & E & D & F & M).
      exists st', l'. repeat (split; [assumption|]).
      intros x. rewrite M. cbn [In]. split; [tauto|].
      intros [H|[[=]|H]]; tauto.
Qed.

(** X22.  The links of a crawl.  When the loop ends, the URLs handed to
    the fetch queue are the seed URL followed by the links received, each
    of them once however often it was received; the filter holds exactly
    those links.  The seed URL is not in the filter at the start, so it is
    fetched again when it comes back as a link. *)
Theorem crawlLoop_links (u : string) (pre post : list selected)
        (ev : selected) :
  forallb goesOn pre = true -> goesOn ev = false ->
  exists (st : loopState) (l : list string),
    loop (mkLoopState [] ∅ [u] false) (pre ++ ev :: post) = Some st
    /\ enqueued st = u :: l /\ NoDup l
    /\ (forall x : string, x ∈ l <-> In (RecvLink x) pre)
    /\ (forall x : string, x ∈ linksFilter st <-> x ∈ l).
Proof.
  intros Hpre Hev.
  destruct (crawlLoop_links_inv pre post ev Hpre Hev
              (mkLoopState [] ∅ [u] false) u [] eq_refl NoDup_nil_2)
    as (st & l & R & E & D & F & M).
  { intros x. rewrite elem_of_nil. cbn [linksFilter]. set_solver. }
  exists st, l. repeat (split; [assumption|]).
  split; [|exact F]. intros x. rewrite M, elem_of_nil. tauto.
Qed.

End CrawlLinkFacts.

Lemma crawlLoop_links_witness :
  exists (st : loopState) (l : list string),
    crawlLoop (fun r n => r ++ [n])
              (mkLoopState [] ∅ ["seed"%string] false)
              ([RecvLink "a"; RecvLink "seed"; RecvLink "a"]%string
                 ++ QueueDone :: [])
    = Some st
    /\ enqueued st = "seed"%string :: l /\ NoDup l
    /\ (forall x : string,
           x ∈ l <-> In (RecvLink x) [RecvLink "a"; RecvLink "seed";
                                      RecvLink "a"]%string)
    /\ (forall x : string, x ∈ linksFilter st <-> x ∈ l).
Proof.
  apply (crawlLoop_links (fun r n => r ++ [n]) "seed"%string
           [RecvLink "a"; RecvLink "seed"; RecvLink "a"]%string []
           QueueDone); reflexivity.
Defined.

(** ** Addresses as text: [ReverseIP] on [ip.String()], [IsIPv4] and
    [IsIPv6] by the bytes *)

Section TextFacts.

Lemma uitoa_no_dot (b : Z) :
  0 <= b < 256 -> CountChar (uitoa b) "." = 0.
Proof.
  intros Hb.
  assert (A : forallb (fun k => CountChar (uitoa (Z.of_nat k)) "." =? 0)
                      (seq 0 256) = true) by (vm_compute; reflexivity).
  rewrite forallb_forall in A. specialize (A (Z.to_nat b)).
  rewrite in_seq, Z2Nat.id in A by lia. apply Z.eqb_eq, A. lia.
Qed.

(** X23.  [ReverseIP] on the text of an IPv4 address of 4 bytes is the
    text of the address with its bytes in reverse order, the form that
    reverse DNS names start with. *)
Theorem ReverseIP_IPv4 (ip : IP) :
  is_bytes ip = true -> length ip = 4%nat ->
  ReverseIP (IP_String ip) = IP_String (rev ip).
Proof.
  intros Hb Hl.
  destruct ip as [|a [|b [|c [|d [|? ?]]]]]; try discriminate Hl.
  apply is_bytes_cons in Hb as [Ha Hb]. apply is_bytes_cons in Hb as [Hb' Hb].
  apply is_bytes_cons in Hb as [Hc Hb]. apply is_bytes_cons in Hb as [Hd _].
  change (IP_String [a; b; c; d])
    with (Join [uitoa a; uitoa b; uitoa c; uitoa d] ".").
  change (IP_String (rev [a; b; c; d]))
    with (Join (rev [uitoa a; uitoa b; uitoa c; uitoa d]) ".").
  rewrite ReverseIP_rev, SplitChar_Join; [reflexivity|discriminate|].
  repeat constructor; now apply uitoa_no_dot.
Qed.

Lemma ReverseIP_IPv4_witness :
  ReverseIP (IP_String [192; 168; 1; 20]) = IP_String (rev [192; 168; 1; 20]).
Proof. apply (ReverseIP_IPv4 [192; 168; 1; 20]); reflexivity. Defined.

(** X24.  [IsIPv6] holds for the 16-byte addresses that have no 4-byte
    form and for nothing else; [IsIPv4] holds for every other slice: the
    addresses of 4 bytes, the IPv4 addresses held in 16 bytes, and also
    [nil] and the slices that are no address. *)
Theorem IsIPv4_IsIPv6_by_bytes (ip : IP) :
  (IsIPv6 ip = true <-> length ip = 16%nat /\ To4 ip = [])
  /\ (IsIPv4 ip = true <-> ~ (length ip = 16%nat /\ To4 ip = [])).
Proof.
  rewrite IsIPv6_negb, IsIPv4_bytes, negb_involutive.
  assert (E : (length ip =? 16)%nat && isNil (To4 ip) = true
              <-> length ip = 16%nat /\ To4 ip = []).
  { rewrite andb_true_iff, Nat.eqb_eq.
    destruct (To4 ip); cbn [isNil]; intuition congruence. }
  split; [exact E|].
  rewrite <- E. destruct ((length ip =? 16)%nat && isNil (To4 ip));
    cbn [negb]; intuition congruence.
Qed.

End TextFacts.
